(** * A per-frame action scheduler: sequential and parallel composites

    Shallow embedding of the Python sources under [src/code]:
    [action.py], [sequence_action.py], [set_action.py], [action_list.py]
    and [bomb_actions.py].

    The package is Python 3 code ([asyncio-example.py] is written with
    [async def] and [await]), so [filter] returns a lazy iterator.

    Python objects live in a store and are named by their location; a
    method call is dispatched on the class of the receiver.  Methods are
    written in an error monad over the store, and the calls a method makes
    on other objects go through [call], which the interpreter [run] closes
    with a recursion budget. *)

From stdpp Require Import base numbers list strings sets.

Open Scope list_scope.

(* stdpp's solvers clear hypotheses that may be gone already *)
Local Set Warnings "-clear-no-such-hyp".

(** * Part I: the program *)

(** ** Values, objects and the store *)

Abbreviation loc := nat (only parsing).

Inductive pyexn := IndexError | AttributeError | TypeError | NameError.

(** What a user-written hook (the callable handed to [callback_action], or
    the body of an overriding method in a user subclass of [action]) does to
    the scheduler: it hands actions to composites. *)
Inductive stmt :=
| AddAction (target child : loc).          (* target.add_action(child) *)

Definition script := list stmt.

(** A user subclass of [action]: each method is either inherited ([None])
    or overridden. *)
Record subclass := {
  sub_start : option script;
  sub_update : option script;
  sub_end : option script;
  sub_is_over : option bool                (* def is_over(self): return b *)
}.

(** The value of [set_action.actions]: the list built by [__init__], or a
    [filter(check_continue_and_end, src)] object.  Inside a filter object,
    [CList l] is the list iterator it pulls from, with [l] the items not yet
    pulled. *)
Inductive coll :=
| CList (items : list loc)
| CFilter (src : coll).

Inductive value :=
| VNone
| VBool (b : bool)
| VInt (z : Z)
| VRef (l : loc)                   (* an object of the store *)
| VDeque (q : list loc)
| VColl (c : coll)
| VCallable (s : script)
| VMethod (m : string)             (* a bound method or a built-in function *)
| VClass (c : string).

(** Python truth value. *)
Definition truthy (v : value) : bool :=
  match v with
  | VNone => false
  | VBool b => b
  | VInt z => negb (z =? 0)%Z
  | VDeque q => negb (length q =? 0)%nat
  | VColl (CList l) => negb (length l =? 0)%nat
  | VColl (CFilter _) | VRef _ | VCallable _ | VMethod _ | VClass _ => true
  end.

(** The instances, by class, with the attributes their initializer sets.
    [WaitAction] is an instance with the methods of [wait_action] whose two
    attributes are set; [wait_action]'s own initializer cannot set them
    (see [new_wait_action]), a subclass with a working one can.
    [CustomAction] is an instance of a user subclass of [action]. *)
Inductive obj :=
| Action
| WaitAction (current_time end_time : Z)
| CallbackAction (callback : script)
| SequenceAction (actions : list loc)               (* collections.deque *)
| SetAction (actions : coll) (started : bool)
| ActionList (sequence : loc)
| CustomAction (cls : subclass).

(** Calls of the life-cycle methods and removals from a deque, in the order
    they happen. *)
Inductive event :=
| EStart (a : loc)
| EUpdate (a : loc) (dt : Z)
| EEnd (a : loc)
| EPopleft (s a : loc).

Record world := { heap : list obj; trace : list event }.

Global Instance pyexn_eq_dec : EqDecision pyexn.
Proof. solve_decision. Defined.

Global Instance event_eq_dec : EqDecision event.
Proof. solve_decision. Defined.

(** ** The monad of method bodies *)

Inductive result (A : Type) :=
| Ret (a : A) (w : world)          (* normal return *)
| Raise (e : pyexn) (w : world)    (* an exception, with the store as it was left *)
| OutOfFuel                        (* the recursion budget ran out *)
| Wrong.                           (* ill-formed store: no such object or field *)

Arguments Ret {A} a w.
Arguments Raise {A} e w.
Arguments OutOfFuel {A}.
Arguments Wrong {A}.

Definition M (A : Type) : Type := world -> result A.

Definition ret {A} (a : A) : M A := fun w => Ret a w.

Definition raise {A} (e : pyexn) : M A := fun w => Raise e w.

Definition out_of_fuel {A} : M A := fun _ => OutOfFuel.

Definition wrong {A} : M A := fun _ => Wrong.

Definition bind {A B} (m : M A) (k : A -> M B) : M B :=
  fun w =>
    match m w with
    | Ret a w' => k a w'
    | Raise e w' => Raise e w'
    | OutOfFuel => OutOfFuel
    | Wrong => Wrong
    end.

Notation "x <- m ;; k" := (bind m (fun x => k))
  (at level 100, m at next level, right associativity).

Notation "m ;;; k" := (bind m (fun _ => k))
  (at level 100, right associativity).

Definition load (l : loc) : M obj :=
  fun w => match heap w !! l with Some o => Ret o w | None => Wrong end.

Definition store (l : loc) (o : obj) : M unit :=
  fun w => Ret tt {| heap := <[l := o]> (heap w); trace := trace w |}.

Definition alloc (o : obj) : M loc :=
  fun w => Ret (length (heap w)) {| heap := heap w ++ [o]; trace := trace w |}.

Definition log (e : event) : M unit :=
  fun w => Ret tt {| heap := heap w; trace := trace w ++ [e] |}.

(** ** Classes and method resolution *)

Inductive class :=
| action | sequence_action | set_action | action_list
| wait_action | callback_action | custom (c : subclass).

Inductive method := start | update | end_ | is_over | result_ | add_action.

Definition class_of (o : obj) : class :=
  match o with
  | Action => action
  | WaitAction _ _ => wait_action
  | CallbackAction _ => callback_action
  | SequenceAction _ => sequence_action
  | SetAction _ _ => set_action
  | ActionList _ => action_list
  | CustomAction c => custom c
  end.

(** The methods a class body writes itself. *)
Definition defines (c : class) (m : method) : bool :=
  match c, m with
  | action, (start | update | end_ | is_over | result_) => true
  | sequence_action, (update | is_over | add_action) => true
  | set_action, (start | update | is_over | add_action) => true
  | action_list, (update | add_action) => true
  | wait_action, (start | update | is_over) => true
  | callback_action, (start | is_over) => true
  | custom c, start => bool_decide (is_Some (sub_start c))
  | custom c, update => bool_decide (is_Some (sub_update c))
  | custom c, end_ => bool_decide (is_Some (sub_end c))
  | custom c, is_over => bool_decide (is_Some (sub_is_over c))
  | _, _ => false
  end.

(** [action_list] and [action] have no base class in the package; every
    other class derives from [action]. *)
Definition base (c : class) : option class :=
  match c with
  | action | action_list => None
  | _ => Some action
  end.

(** The class whose body supplies method [m] for an instance of [c]. *)
Definition resolve (c : class) (m : method) : option class :=
  if defines c m then Some c
  else match base c with
       | Some b => if defines b m then Some b else None
       | None => None
       end.

Definition method_name (m : method) : string :=
  match m with
  | start => "start" | update => "update" | end_ => "end"
  | is_over => "is_over" | result_ => "result" | add_action => "add_action"
  end.

Definition all_methods : list method :=
  [start; update; end_; is_over; result_; add_action].

(** [getattr o name]: the instance attributes set by the initializer first,
    then the methods of the class and of its base. *)
Definition getattr (o : obj) (name : string) : option value :=
  let inst :=
    match o with
    | Action | CustomAction _ => []
    | WaitAction c e => [("current_time", VInt c); ("end_time", VInt e)]
    | CallbackAction cb => [("callback", VCallable cb)]
    | SequenceAction q => [("actions", VDeque q)]
    | SetAction c s => [("actions", VColl c); ("started", VBool s)]
    | ActionList s => [("sequence", VRef s)]
    end in
  match find (fun kv => String.eqb name (fst kv)) inst with
  | Some kv => Some (snd kv)
  | None =>
      match find (fun m => String.eqb name (method_name m)) all_methods with
      | Some m =>
          match resolve (class_of o) m with
          | Some _ => Some (VMethod name)
          | None => None
          end
      | None => None
      end
  end.

(** [self.name]: [AttributeError] when the object has no such attribute. *)
Definition attr (self : loc) (name : string) : M value :=
  o <- load self;;
  match getattr o name with
  | Some v => ret v
  | None => raise AttributeError
  end.

(** ** The method bodies *)

Section Methods.

(** [call m self args] is the call [self.m(args)] on another object;
    [fuel] bounds the iterations of a loop of this activation. *)
Variable call : method -> loc -> list value -> M value.

Variable fuel : nat.

(** [v.m(args)] for a value read from an attribute: only objects of the
    store have methods. *)
Definition call_on (v : value) (m : method) (args : list value) : M value :=
  match v with
  | VRef l => call m l args
  | _ => raise AttributeError
  end.

(** The statements of a user hook, in order. *)
Fixpoint run_script (s : script) : M unit :=
  match s with
  | [] => ret tt
  | AddAction target child :: s' =>
      call add_action target [VRef child];;;
      run_script s'
  end.

(** *** action.py *)

Definition action_start (self : loc) : M value := ret VNone.

Definition action_update (self : loc) (dt : Z) : M value := ret VNone.

Definition action_end (self : loc) : M value := ret VNone.

Definition action_is_over (self : loc) : M value := ret (VBool true).

Definition action_result (self : loc) : M value := ret VNone.

(** *** A user subclass of action *)

Definition custom_hook (s : script) : M value := run_script s;;; ret VNone.

Definition custom_is_over (b : bool) : M value := ret (VBool b).

(** *** bomb_actions.py *)

Definition wait_action_start (self : loc) : M value :=
  o <- load self;;
  match o with
  | WaitAction _ e => store self (WaitAction 0 e);;; ret VNone
  | _ => wrong
  end.

Definition wait_action_update (self : loc) (dt : Z) : M value :=
  o <- load self;;
  match o with
  | WaitAction c e => store self (WaitAction (c + dt) e);;; ret VNone
  | _ => wrong
  end.

Definition wait_action_is_over (self : loc) : M value :=
  c <- attr self "current_time";;
  e <- attr self "end_time";;
  match c, e with
  | VInt c, VInt e => ret (VBool (e <=? c)%Z)
  | _, _ => wrong
  end.

Definition callback_action_start (self : loc) : M value :=
  cb <- attr self "callback";;
  match cb with
  | VCallable s => run_script s;;; ret VNone
  | _ => wrong
  end.

Definition callback_action_is_over (self : loc) : M value := ret (VBool true).

(** *** sequence_action.py *)

Definition deque_of (self : loc) : M (list loc) :=
  v <- attr self "actions";;
  match v with
  | VDeque q => ret q
  | _ => wrong
  end.

(** [self.actions.popleft()] *)
Definition popleft (self : loc) : M loc :=
  q <- deque_of self;;
  match q with
  | [] => raise IndexError
  | a :: q' =>
      store self (SequenceAction q');;;
      log (EPopleft self a);;;
      ret a
  end.

(** Lines 21-34 and 43-56: the two copies of the block that retires the
    front action and activates its successor.  [None] means the method
    returns; [Some front'] goes back to the head of the loop. *)
Definition retire (self front : loc) : M (option loc) :=
  popleft self;;;
  call end_ front [];;;
  q <- deque_of self;;
  match q with
  | [] => ret None
  | front' :: _ =>
      call start front' [];;;
      ret (Some front')
  end.

Fixpoint sequence_action_loop (n : nat) (self front : loc) (dt : Z) : M value :=
  match n with
  | O => out_of_fuel
  | S n' =>
      over <- call is_over front [];;
      if truthy over then
        next <- retire self front;;
        match next with
        | None => ret VNone
        | Some front' => sequence_action_loop n' self front' dt
        end
      else
        call update front [VInt dt];;;
        over' <- call is_over front [];;
        if truthy over' then
          next <- retire self front;;
          match next with
          | None => ret VNone
          | Some front' => sequence_action_loop n' self front' dt
          end
        else ret VNone
  end.

Definition sequence_action_update (self : loc) (dt : Z) : M value :=
  q <- deque_of self;;
  match q with
  | [] => raise IndexError                       (* self.actions[0] *)
  | front :: _ => sequence_action_loop fuel self front dt
  end.

Definition sequence_action_is_over (self : loc) : M value :=
  q <- deque_of self;;
  ret (VBool (length q =? 0)%nat).

Definition sequence_action_add_action (self a : loc) : M value :=
  q <- deque_of self;;
  store self (SequenceAction (q ++ [a]));;;
  q' <- deque_of self;;
  if (length q' =? 1)%nat then
    target <- attr self "action";;               (* self.action *)
    call_on target start [];;;
    ret VNone
  else ret VNone.

(** *** set_action.py *)

Definition check_continue_and_end (a : loc) : M value :=
  over <- call is_over a [];;
  if truthy over then
    call end_ a [];;;
    ret (VBool false)
  else ret (VBool true).

Definition coll_of (self : loc) : M coll :=
  v <- attr self "actions";;
  match v with
  | VColl c => ret c
  | _ => wrong
  end.

Definition set_coll (self : loc) (c : coll) : M unit :=
  o <- load self;;
  match o with
  | SetAction _ s => store self (SetAction c s)
  | _ => wrong
  end.

Definition set_started (self : loc) (b : bool) : M unit :=
  o <- load self;;
  match o with
  | SetAction c _ => store self (SetAction c b)
  | _ => wrong
  end.

(** The next item of the list iterator at the bottom of a stack of filter
    objects, and the stack once it is pulled. *)
Fixpoint pop_source (c : coll) : option (loc * coll) :=
  match c with
  | CList [] => None
  | CList (a :: l) => Some (a, CList l)
  | CFilter src =>
      match pop_source src with
      | Some (a, src') => Some (a, CFilter src')
      | None => None
      end
  end.

Fixpoint layers (c : coll) : nat :=
  match c with
  | CList _ => O
  | CFilter src => S (layers src)
  end.

(** An item pulled from the source goes through the predicate of each
    filter layer, innermost first; the first layer that rejects it drops
    it and pulls the next item. *)
Fixpoint accept (k : nat) (a : loc) : M bool :=
  match k with
  | O => ret true
  | S k' =>
      keep <- check_continue_and_end a;;
      if truthy keep then accept k' a else ret false
  end.

(** [for action in self.actions: body(action)] when [self.actions] is a
    list: the list iterator is an index into the list, which may grow
    while the loop runs.  Only [start] runs this loop, and nothing that
    [start()] reaches calls [update], so the attribute still names the list
    at every turn. *)
Fixpoint for_list (n : nat) (self : loc) (i : nat) (body : loc -> M value) : M unit :=
  match n with
  | O => out_of_fuel
  | S n' =>
      c <- coll_of self;;
      match c with
      | CList l =>
          match l !! i with
          | Some a => body a;;; for_list n' self (S i) body
          | None => ret tt
          end
      | CFilter _ => wrong
      end
  end.

(** The same loop when [self.actions] is a filter object: the loop and the
    attribute share the one iterator, so what the loop consumes is gone
    from [self.actions]. *)
Fixpoint for_filter (n : nat) (self : loc) (body : loc -> M value) : M unit :=
  match n with
  | O => out_of_fuel
  | S n' =>
      c <- coll_of self;;
      match pop_source c with
      | None => ret tt
      | Some (a, c') =>
          set_coll self c';;;
          keep <- accept (layers c) a;;
          if keep then body a;;; for_filter n' self body
          else for_filter n' self body
      end
  end.

Definition for_each (self : loc) (body : loc -> M value) : M unit :=
  c <- coll_of self;;
  match c with
  | CList _ => for_list fuel self 0 body
  | CFilter _ => for_filter fuel self body
  end.

Definition set_action_start (self : loc) : M value :=
  for_each self (fun a => call start a []);;;
  set_started self true;;;
  ret VNone.

Definition set_action_update (self : loc) (dt : Z) : M value :=
  c <- coll_of self;;
  set_coll self (CFilter c);;;                   (* filter(...) is lazy *)
  for_each self (fun a => call update a [VInt dt]);;;
  ret VNone.

Definition set_action_is_over (self : loc) : M value :=
  c <- coll_of self;;
  match c with
  | CList l => ret (VBool (length l =? 0)%nat)
  | CFilter _ => raise TypeError                 (* a filter object has no len() *)
  end.

Definition set_action_add_action (self a : loc) : M value :=
  c <- coll_of self;;
  match c with
  | CList l =>
      set_coll self (CList (l ++ [a]));;;
      st <- attr self "started";;
      if truthy st then call start a [];;; ret VNone
      else ret VNone
  | CFilter _ => raise AttributeError            (* a filter object has no append *)
  end.

(** *** action_list.py *)

Definition action_list_update (self : loc) (dt : Z) : M value :=
  s <- attr self "sequence";;
  over <- call_on s is_over [];;
  if negb (truthy over) then
    call_on s update [];;;                       (* self.sequence.update() *)
    ret VNone
  else ret VNone.

Definition action_list_add_action (self a : loc) : M value :=
  s <- attr self "sequence";;
  call_on s add_action [VRef a];;;
  ret VNone.

(** *** Dispatch *)

(** The body that class [k] gives to method [m], once the arguments are
    bound; a wrong number of arguments is a [TypeError]. *)
Definition body (k : class) (m : method) (self : loc) (args : list value) : M value :=
  match m, args with
  | start, [] =>
      log (EStart self);;;
      match k with
      | action => action_start self
      | set_action => set_action_start self
      | wait_action => wait_action_start self
      | callback_action => callback_action_start self
      | custom c =>
          match sub_start c with Some s => custom_hook s | None => wrong end
      | _ => wrong
      end
  | update, [VInt dt] =>
      log (EUpdate self dt);;;
      match k with
      | action => action_update self dt
      | sequence_action => sequence_action_update self dt
      | set_action => set_action_update self dt
      | action_list => action_list_update self dt
      | wait_action => wait_action_update self dt
      | custom c =>
          match sub_update c with Some s => custom_hook s | None => wrong end
      | _ => wrong
      end
  | update, [_] => wrong                         (* dt is a number *)
  | end_, [] =>
      log (EEnd self);;;
      match k with
      | action => action_end self
      | custom c =>
          match sub_end c with Some s => custom_hook s | None => wrong end
      | _ => wrong
      end
  | is_over, [] =>
      match k with
      | action => action_is_over self
      | sequence_action => sequence_action_is_over self
      | set_action => set_action_is_over self
      | wait_action => wait_action_is_over self
      | callback_action => callback_action_is_over self
      | custom c =>
          match sub_is_over c with Some b => custom_is_over b | None => wrong end
      | _ => wrong
      end
  | result_, [] =>
      match k with
      | action => action_result self
      | _ => wrong
      end
  | add_action, [VRef a] =>
      match k with
      | sequence_action => sequence_action_add_action self a
      | set_action => set_action_add_action self a
      | action_list => action_list_add_action self a
      | _ => wrong
      end
  | add_action, [_] => wrong                     (* actions are objects *)
  | _, _ => raise TypeError
  end.

(** [self.m(args)]: look the method up in the class of [self], then run
    the body found. *)
Definition invoke (m : method) (self : loc) (args : list value) : M value :=
  o <- load self;;
  match resolve (class_of o) m with
  | Some k => body k m self args
  | None => raise AttributeError
  end.

End Methods.

(** The interpreter: [n] bounds the depth of nested calls and the length of
    each loop. *)
Fixpoint run (n : nat) (m : method) (self : loc) (args : list value) : M value :=
  match n with
  | O => out_of_fuel
  | S n' => invoke (run n') n' m self args
  end.

(** ** Constructors *)

Definition new_action : M loc := alloc Action.

Definition new_sequence_action : M loc := alloc (SequenceAction []).

Definition new_set_action : M loc := alloc (SetAction (CList []) false).

Definition new_callback_action (callback : script) : M loc :=
  alloc (CallbackAction callback).

Definition new_custom_action (c : subclass) : M loc := alloc (CustomAction c).

Definition new_action_list : M loc :=
  s <- new_sequence_action;;
  alloc (ActionList s).

(** Name lookup in a function body: the local scope, then the globals of
    the module, then the built-ins. *)
Fixpoint lookup_name (scopes : list (list (string * value))) (name : string) : M value :=
  match scopes with
  | [] => raise NameError
  | sc :: rest =>
      match find (fun kv => String.eqb name (fst kv)) sc with
      | Some kv => ret (snd kv)
      | None => lookup_name rest name
      end
  end.

Definition bomb_actions_globals : list (string * value) :=
  [("action", VClass "action"); ("wait_action", VClass "wait_action");
   ("callback_action", VClass "callback_action")].

(** Python's built-in functions and the exceptions the package can meet. *)
Definition builtins : list (string * value) :=
  map (fun n => (n, VMethod n))
    ["abs"; "aiter"; "all"; "anext"; "any"; "ascii"; "bin"; "bool";
     "breakpoint"; "bytearray"; "bytes"; "callable"; "chr"; "classmethod";
     "compile"; "complex"; "delattr"; "dict"; "dir"; "divmod"; "enumerate";
     "eval"; "exec"; "filter"; "float"; "format"; "frozenset"; "getattr";
     "globals"; "hasattr"; "hash"; "help"; "hex"; "id"; "input"; "int";
     "isinstance"; "issubclass"; "iter"; "len"; "list"; "locals"; "map";
     "max"; "memoryview"; "min"; "next"; "object"; "oct"; "open"; "ord";
     "pow"; "print"; "property"; "range"; "repr"; "reversed"; "round";
     "set"; "setattr"; "slice"; "sorted"; "staticmethod"; "str"; "sum";
     "super"; "tuple"; "type"; "vars"; "zip"; "__import__";
     "IndexError"; "AttributeError"; "TypeError"; "NameError"].

(** [wait_action.__init__(self, time)]: the right-hand side [0, end_time]
    is evaluated first, then the two attributes are set. *)
Definition wait_action_init (self : loc) (time : value) : M obj :=
  let locals := [("self", VRef self); ("time", time)] in
  e <- lookup_name [locals; bomb_actions_globals; builtins] "end_time";;
  match e with
  | VInt e => ret (WaitAction 0 e)
  | _ => wrong
  end.

Definition fresh_loc : M loc := fun w => Ret (length (heap w)) w.

(** [wait_action(time)]: the instance enters the store once its initializer
    has set its attributes. *)
Definition new_wait_action (time : value) : M loc :=
  self <- fresh_loc;;
  o <- wait_action_init self time;;
  alloc o.

(** ** Hosts *)

(** A user subclass of [action] that only overrides [is_over], to answer
    [False]: an action that keeps running. *)
Definition running : subclass :=
  {| sub_start := None; sub_update := None; sub_end := None;
     sub_is_over := Some false |}.

(** [try: m  except Exception: pass], as a host that goes on after a failed
    call writes it. *)
Definition attempt (m : M value) : M value :=
  fun w =>
    match m w with
    | Raise _ w' => Ret VNone w'
    | r => r
    end.

(** A host that hands the children of [l] to the composite [s], one
    [add_action] call each. *)
Fixpoint add_actions (n : nat) (s : loc) (l : list loc) : M unit :=
  match l with
  | [] => ret tt
  | a :: l' => run n add_action s [VRef a];;; add_actions n s l'
  end.

Definition empty_world : world := {| heap := []; trace := [] |}.

(** * Part II: the vocabulary of the statements *)

(** ** Leaf actions

    A leaf is an action whose methods touch no other object: the base
    [action], a timer with the methods of [wait_action], a
    [callback_action] or user subclass whose hooks hand nothing to a
    composite.  Its behaviour is a function of its own state. *)

Definition quiet (s : option script) : bool :=
  match s with
  | None | Some [] => true
  | Some (_ :: _) => false
  end.

Definition leaf (o : obj) : bool :=
  match o with
  | Action | WaitAction _ _ => true
  | CallbackAction cb => quiet (Some cb)
  | CustomAction c => quiet (sub_start c) && quiet (sub_update c) && quiet (sub_end c)
  | SequenceAction _ | SetAction _ _ | ActionList _ => false
  end.

(** What [is_over()] answers for a leaf in state [o]. *)
Definition over (o : obj) : bool :=
  match o with
  | WaitAction c e => (e <=? c)%Z
  | CustomAction c => default true (sub_is_over c)
  | _ => true
  end.

(** The state of a leaf after [start()] and after [update(dt)]. *)
Definition on_start (o : obj) : obj :=
  match o with
  | WaitAction _ e => WaitAction 0 e
  | _ => o
  end.

Definition on_update (dt : Z) (o : obj) : obj :=
  match o with
  | WaitAction c e => WaitAction (c + dt) e
  | _ => o
  end.

Definition leaves (w : world) (l : list loc) : Prop :=
  forall c, c ∈ l -> exists o, heap w !! c = Some o /\ leaf o = true.

(** ** Worlds and traces *)

Definition put (l : loc) (o : obj) (w : world) : world :=
  {| heap := <[l := o]> (heap w); trace := trace w |}.

Definition emit (e : event) (w : world) : world :=
  {| heap := heap w; trace := trace w ++ [e] |}.


(** The world after the front [a] is popped and ended. *)
Definition retired (s a : loc) (r : list loc) (w : world) : world :=
  emit (EEnd a) (emit (EPopleft s a) (put s (SequenceAction r) w)).

(** The world after [a] is started. *)
Definition activated (a : loc) (o : obj) (w : world) : world :=
  put a (on_start o) (emit (EStart a) w).

(** The world after the children of [l] are started one after the other. *)
Fixpoint start_all (l : list loc) (w : world) : world :=
  match l with
  | [] => w
  | a :: l' =>
      match heap w !! a with
      | Some o => start_all l' (activated a o w)
      | None => w
      end
  end.

(** The world after the loop of [set_action.update] has consumed the
    children [l] from the filter object: each child in turn is asked
    [is_over()], then ended or updated, before the next one is looked at. *)
Fixpoint sweep (dt : Z) (s : loc) (st : bool) (l : list loc) (w : world) : world :=
  match l with
  | [] => w
  | c :: l' =>
      let w1 := put s (SetAction (CFilter (CList l')) st) w in
      match heap w !! c with
      | Some o =>
          if over o then sweep dt s st l' (emit (EEnd c) w1)
          else sweep dt s st l' (put c (on_update dt o) (emit (EUpdate c dt) w1))
      | None => w
      end
  end.

(** What the pass does to child [c], by the state [c] is in. *)
Definition pass_event (dt : Z) (w : world) (c : loc) : list event :=
  match heap w !! c with
  | Some o => if over o then [EEnd c] else [EUpdate c dt]
  | None => []
  end.

Definition pass_events (dt : Z) (w : world) (l : list loc) : list event :=
  flat_map (pass_event dt w) l.

(** How many times [c.start()] was called. *)
Definition starts_of (c : loc) (tr : list event) : nat :=
  length (filter (fun e => e = EStart c) tr).


(** The scenario of three children: A (two time units, one already spent),
    B (a callback, over at once) and C (three time units). *)
Definition abc_world : world :=
  {| heap := [SequenceAction [1; 2; 3];
              WaitAction 1 2; CallbackAction []; WaitAction 0 3];
     trace := [] |}.

(** ** What a run of the sequential loop achieves *)




(** ** What every call preserves *)

(** Whether [self.actions] of a parallel composite is a filter object. *)
Definition is_filter (o : obj) : bool :=
  match o with
  | SetAction (CFilter _) _ => true
  | _ => false
  end.

(** An object keeps its class, and a parallel composite whose collection
    has become a filter object keeps a filter object. *)
Definition evolves (o o' : obj) : Prop :=
  class_of o = class_of o' /\ (is_filter o = true -> is_filter o' = true).

Definition extends (w w' : world) : Prop := Forall2 evolves (heap w) (heap w').

(** [m] run from [w], if it returns or raises, leaves a store that extends
    the one it found. *)
Definition stable_on {A} (w : world) (m : M A) : Prop :=
  match m w with
  | Ret _ w' | Raise _ w' => extends w w'
  | OutOfFuel | Wrong => True
  end.

Definition stable {A} (m : M A) : Prop := forall w, stable_on w m.

(** ** One update of a sequence, as a function of the world *)

(** The world after the loop of [sequence_action.update], entered with the
    front [f] and the children [r] behind it, all leaves: the front is
    updated unless it is over already; when it is over then, it is popped
    and ended, its successor is started and the loop goes on with it. *)
Fixpoint drain (dt : Z) (s f : loc) (r : list loc) (w : world) : world :=
  match heap w !! f with
  | None => w
  | Some o =>
      let w1 := if over o then w
                else put f (on_update dt o) (emit (EUpdate f dt) w) in
      if (if over o then true else over (on_update dt o)) then
        match r with
        | [] => retired s f [] w1
        | f' :: r' =>
            match heap w1 !! f' with
            | Some o' => drain dt s f' r' (activated f' o' (retired s f r w1))
            | None => w1
            end
        end
      else w1
  end.

(** The calls of a trace that are not child updates. *)
Definition is_update (e : event) : bool :=
  match e with
  | EUpdate _ _ => true
  | _ => false
  end.

(** The calls that retire the children [done], one after the other, with
    [rest] behind them: pop, end, start of the next child in line. *)
Fixpoint lifecycle (s : loc) (done rest : list loc) : list event :=
  match done with
  | [] => []
  | d :: done' =>
      EPopleft s d :: EEnd d ::
      map EStart (take 1 (done' ++ rest)) ++ lifecycle s done' rest
  end.


(** What [drain] guarantees: the queue [f :: r] splits into the children
    retired and the children kept, the trace grows by [tr], and only the
    composite, the retired children and the new front change. *)
Definition drain_ok (s : loc) (w : world) (f : loc) (r : list loc)
    (w' : world) (done rest : list loc) (tr : list event) : Prop :=
  f :: r = done ++ rest
  /\ heap w' !! s = Some (SequenceAction rest)
  /\ trace w' = trace w ++ tr
  /\ filter (fun e => is_update e = false) tr = lifecycle s done rest
  /\ (forall l, l <> s -> l ∉ done ++ take 1 rest -> heap w' !! l = heap w !! l).

(** ** Later states and more hosts *)

(** The states the package can be in after [w]: any number of calls of its
    methods, each of which returned or raised. *)
Inductive later (w : world) : world -> Prop :=
| later_now : later w w
| later_return w1 w2 n m self args v :
    later w w1 -> run n m self args w1 = Ret v w2 -> later w w2
| later_raise w1 w2 n m self args e :
    later w w1 -> run n m self args w1 = Raise e w2 -> later w w2.

(** A host that calls [c.update(dt)] for each [dt] of [dts], one frame
    after the other. *)
Fixpoint updates (n : nat) (c : loc) (dts : list Z) : M unit :=
  match dts with
  | [] => ret tt
  | dt :: dts' => run n update c [VInt dt];;; updates n c dts'
  end.

(** The classes of the package that derive from [action]. *)
Definition package_action (o : obj) : bool :=
  match o with
  | Action | WaitAction _ _ | CallbackAction _
  | SequenceAction _ | SetAction _ _ => true
  | ActionList _ | CustomAction _ => false
  end.

(** A user subclass of [action] whose [end()] hands the instance [c] back
    to the composite [s]; everything else is inherited. *)
Definition readds (s c : loc) : subclass :=
  {| sub_start := None; sub_update := None;
     sub_end := Some [AddAction s c]; sub_is_over := None |}.

(** * Part III: lemmas and theorems *)

(** ** Unfolding *)

Lemma run_S n m self args :
  run (S n) m self args = invoke (run n) n m self args.
Proof. reflexivity. Qed.

(** One turn of each loop. *)
Lemma sequence_action_loop_S call n s front dt :
  sequence_action_loop call (S n) s front dt
  = (over <- call is_over front [];;
     if truthy over then
       next <- retire call s front;;
       match next with
       | None => ret VNone
       | Some front' => sequence_action_loop call n s front' dt
       end
     else
       call update front [VInt dt];;;
       over' <- call is_over front [];;
       if truthy over' then
         next <- retire call s front;;
         match next with
         | None => ret VNone
         | Some front' => sequence_action_loop call n s front' dt
         end
       else ret VNone).
Proof. reflexivity. Qed.

Lemma for_list_S n s i body :
  for_list (S n) s i body
  = (c <- coll_of s;;
     match c with
     | CList l =>
         match l !! i with
         | Some a => body a;;; for_list n s (S i) body
         | None => ret tt
         end
     | CFilter _ => wrong
     end).
Proof. reflexivity. Qed.

Lemma for_filter_S call n s body :
  for_filter call (S n) s body
  = (c <- coll_of s;;
     match pop_source c with
     | None => ret tt
     | Some (a, c') =>
         set_coll s c';;;
         keep <- accept call (layers c) a;;
         if keep then body a;;; for_filter call n s body
         else for_filter call n s body
     end).
Proof. reflexivity. Qed.

Global Arguments run : simpl never.

Global Arguments sequence_action_loop : simpl never.

Global Arguments for_list : simpl never.

Global Arguments for_filter : simpl never.

(** ** Basic facts *)

Lemma put_same l o w : heap w !! l = Some o -> put l o w = w.
Proof.
  intros H. destruct w as [h t]. unfold put. simpl in *.
  f_equal. by apply list_insert_id.
Qed.

Lemma heap_put_eq l o w :
  l < length (heap w) -> heap (put l o w) !! l = Some o.
Proof. intros H. simpl. by apply list_lookup_insert_eq. Qed.

Lemma heap_put_ne l l' o w : l <> l' -> heap (put l o w) !! l' = heap w !! l'.
Proof. intros H. simpl. by apply list_lookup_insert_ne. Qed.

Lemma put_put l o o' w : put l o (put l o' w) = put l o w.
Proof. unfold put. cbn. by rewrite list_insert_insert_eq. Qed.

Lemma leaf_on_start o : leaf o = true -> leaf (on_start o) = true.
Proof. by destruct o. Qed.

Lemma leaf_on_update dt o : leaf o = true -> leaf (on_update dt o) = true.
Proof. by destruct o. Qed.

(** Symbolic execution of a method body: unfold the monad and use the
    lookups at hand. *)
Ltac look :=
  match goal with
  | H : heap ?w !! ?l = Some _ |- context [heap ?w !! ?l] => rewrite H
  end.

Ltac look_put :=
  first
    [ rewrite list_lookup_insert_eq
        by (rewrite ?length_insert; eapply lookup_lt_Some; eassumption)
    | rewrite list_lookup_insert_ne by done ].

Ltac mstep :=
  first
    [ look
    | look_put
    | progress (unfold invoke, bind, load, attr, store, log, ret, raise, wrong,
                deque_of, coll_of, set_coll, set_started, popleft, call_on,
                wait_action_is_over, wait_action_start, wait_action_update,
                callback_action_start, callback_action_is_over, custom_hook,
                custom_is_over, action_start, action_update, action_end,
                action_is_over, action_result, sequence_action_update,
                sequence_action_is_over, sequence_action_add_action,
                action_list_update, action_list_add_action,
                set_action_is_over, set_action_add_action)
    | progress cbn ].

(** [norm] leaves the calls to other objects folded; [exec] runs them too. *)
Ltac norm := repeat mstep.

Ltac exec :=
  repeat first
    [ mstep
    | rewrite run_S
    | rewrite sequence_action_loop_S
    | rewrite for_list_S
    | rewrite for_filter_S ].

(** ** Calls on a leaf *)

Ltac leaf_cases o Hleaf :=
  destruct o as [| ? ? | [|? ?] | | | | [[[|? ?]|] [[|? ?]|] [[|? ?]|] [?|]]];
  try discriminate Hleaf.

Lemma run_is_over_leaf n w c o :
  heap w !! c = Some o -> leaf o = true ->
  run (S n) is_over c [] w = Ret (VBool (over o)) w.
Proof. intros Hc Hleaf. leaf_cases o Hleaf; by exec. Qed.

Lemma run_start_leaf n w c o :
  heap w !! c = Some o -> leaf o = true ->
  run (S n) start c [] w = Ret VNone (put c (on_start o) (emit (EStart c) w)).
Proof.
  intros Hc Hleaf.
  assert (Hid : put c o (emit (EStart c) w) = emit (EStart c) w)
    by (by apply put_same).
  leaf_cases o Hleaf; exec; try done; by rewrite Hid.
Qed.

Lemma run_update_leaf n w c o dt :
  heap w !! c = Some o -> leaf o = true ->
  run (S n) update c [VInt dt] w
  = Ret VNone (put c (on_update dt o) (emit (EUpdate c dt) w)).
Proof.
  intros Hc Hleaf.
  assert (Hid : put c o (emit (EUpdate c dt) w) = emit (EUpdate c dt) w)
    by (by apply put_same).
  leaf_cases o Hleaf; exec; try done; by rewrite Hid.
Qed.

Lemma run_end_leaf n w c o :
  heap w !! c = Some o -> leaf o = true ->
  run (S n) end_ c [] w = Ret VNone (emit (EEnd c) w).
Proof. intros Hc Hleaf. leaf_cases o Hleaf; by exec. Qed.

Lemma leaf_not_composite w c s o q :
  heap w !! c = Some o -> leaf o = true ->
  heap w !! s = Some (SequenceAction q) -> c <> s.
Proof. intros Hc Hl Hs ->. rewrite Hs in Hc. by inversion Hc; subst. Qed.

Lemma leaf_not_set w c s o k st :
  heap w !! c = Some o -> leaf o = true ->
  heap w !! s = Some (SetAction k st) -> c <> s.
Proof. intros Hc Hl Hs ->. rewrite Hs in Hc. by inversion Hc; subst. Qed.

Lemma leaves_emit e w l : leaves w l -> leaves (emit e w) l.
Proof. done. Qed.

Lemma leaves_put_other w l s o :
  s ∉ l -> leaves w l -> leaves (put s o w) l.
Proof.
  intros Hs Hl c Hc. destruct (Hl c Hc) as (oc & Hoc & Hleaf).
  exists oc. split; [|done]. rewrite heap_put_ne; [done|]. by intros ->.
Qed.

Lemma leaves_put_leaf w l c o :
  leaf o = true -> leaves w l -> leaves (put c o w) l.
Proof.
  intros Ho Hl c' Hc'. destruct (Hl c' Hc') as (oc & Hoc & Hleaf).
  destruct (decide (c = c')) as [->|Hne].
  - exists o. split; [|done]. apply heap_put_eq. by eapply lookup_lt_Some.
  - exists oc. by rewrite heap_put_ne.
Qed.


Lemma leaves_not_in_set w l s k st :
  leaves w l -> heap w !! s = Some (SetAction k st) -> s ∉ l.
Proof.
  intros Hl Hs Hin. destruct (Hl s Hin) as (o & Ho & Hleaf).
  rewrite Hs in Ho. by inversion Ho; subst.
Qed.

Lemma leaves_app w l1 l2 : leaves w (l1 ++ l2) <-> leaves w l1 /\ leaves w l2.
Proof.
  split.
  - intros H. split; intros c Hc; apply H; set_solver.
  - intros [H1 H2] c Hc. apply elem_of_app in Hc as [Hc|Hc]; eauto.
Qed.

Lemma leaves_cons w c l :
  leaves w (c :: l) <-> (exists o, heap w !! c = Some o /\ leaf o = true) /\ leaves w l.
Proof.
  split.
  - intros H. split; [apply H; set_solver|]. intros c' Hc'. apply H. set_solver.
  - intros [H1 H2] c' Hc'. apply elem_of_cons in Hc' as [->|Hc']; eauto.
Qed.

Lemma leaves_activated w l a o :
  leaf o = true -> leaves w l -> leaves (activated a o w) l.
Proof.
  intros Ho Hl. apply leaves_put_leaf; [by apply leaf_on_start|].
  by apply leaves_emit.
Qed.

(** ** An invariant of every call

    No method changes the class of an object, removes an object, or turns
    the filter object of a parallel composite back into a list. *)

Lemma evolves_refl o : evolves o o.
Proof. by split. Qed.

Lemma evolves_trans o1 o2 o3 : evolves o1 o2 -> evolves o2 o3 -> evolves o1 o3.
Proof. intros [H1 H2] [H3 H4]. split; [congruence|auto]. Qed.

Lemma extends_refl w : extends w w.
Proof.
  apply Forall2_same_length_lookup. split; [done|].
  intros i x y Hx Hy. rewrite Hx in Hy. injection Hy as <-. apply evolves_refl.
Qed.

Lemma extends_trans w1 w2 w3 : extends w1 w2 -> extends w2 w3 -> extends w1 w3.
Proof.
  unfold extends. intros H12 H23.
  apply Forall2_same_length_lookup. split.
  - by rewrite (Forall2_length _ _ _ H12), (Forall2_length _ _ _ H23).
  - intros i x z Hx Hz.
    destruct (Forall2_lookup_l _ _ _ _ _ H12 Hx) as (y & Hy & Hxy).
    eapply evolves_trans; [exact Hxy|].
    eapply Forall2_lookup_lr; eauto.
Qed.

Lemma extends_same_heap w w' : heap w' = heap w -> extends w w'.
Proof. unfold extends. intros ->. apply extends_refl. Qed.

Lemma extends_emit w e : extends w (emit e w).
Proof. by apply extends_same_heap. Qed.

Lemma extends_put w l o o' :
  heap w !! l = Some o -> evolves o o' -> extends w (put l o' w).
Proof.
  intros Hl He. unfold extends. cbn.
  rewrite <- (list_insert_id (heap w) l o Hl) at 1.
  apply Forall2_insert; [|done]. apply extends_refl.
Qed.

Lemma stable_on_bind {A B} w (m : M A) (k : A -> M B) :
  stable_on w m ->
  (forall a w1, m w = Ret a w1 -> stable_on w1 (k a)) ->
  stable_on w (bind m k).
Proof.
  unfold stable_on, bind. intros Hm Hk.
  destruct (m w) as [a w1| | |] eqn:E; try done.
  specialize (Hk a w1 eq_refl).
  destruct (k a w1); try done; by eapply extends_trans.
Qed.

Lemma stable_bind {A B} (m : M A) (k : A -> M B) :
  stable m -> (forall a, stable (k a)) -> stable (bind m k).
Proof. intros Hm Hk w. apply stable_on_bind; [apply Hm|]. intros; apply Hk. Qed.

Lemma stable_ret {A} (a : A) : stable (ret a).
Proof. intros w. apply extends_refl. Qed.

Lemma stable_raise {A} e : stable (@raise A e).
Proof. intros w. apply extends_refl. Qed.

Lemma stable_wrong {A} : stable (@wrong A).
Proof. by intros w. Qed.
Lemma stable_out_of_fuel {A} : stable (@out_of_fuel A).
Proof. by intros w. Qed.
Lemma stable_log e : stable (log e).
Proof. intros w. by apply extends_same_heap. Qed.
Lemma stable_load l : stable (load l).
Proof. intros w. unfold stable_on, load. destruct (heap w !! l); [apply extends_refl|done]. Qed.
Lemma stable_attr l name : stable (attr l name).
Proof.
  intros w. unfold stable_on, attr, bind, load.
  destruct (heap w !! l) as [o|]; [|done].
  destruct (getattr o name); apply extends_refl.
Qed.

Lemma stable_if {A} (b : bool) (m1 m2 : M A) :
  stable m1 -> stable m2 -> stable (if b then m1 else m2).
Proof. by destruct b. Qed.

(** A replacement of the object at [self] that keeps its class. *)
Lemma stable_modify self (f : obj -> option obj) :
  (forall o o', f o = Some o' -> evolves o o') ->
  stable (o <- load self;;
          match f o with Some o' => store self o' | None => wrong end).
Proof.
  intros Hf w. unfold stable_on, bind, load.
  destruct (heap w !! self) as [o|] eqn:E; [|done].
  destruct (f o) as [o'|] eqn:Ef; [|done]. cbn.
  exact (extends_put w self o o' E (Hf _ _ Ef)).
Qed.

Lemma stable_wait_action_start self : stable (wait_action_start self).
Proof.
  intros w. unfold stable_on, wait_action_start, bind, load.
  destruct (heap w !! self) as [o|] eqn:E; [|done].
  destruct o; try done. cbn. by apply (extends_put w self _ _ E).
Qed.

Lemma stable_wait_action_update self dt : stable (wait_action_update self dt).
Proof.
  intros w. unfold stable_on, wait_action_update, bind, load.
  destruct (heap w !! self) as [o|] eqn:E; [|done].
  destruct o; try done. cbn. by apply (extends_put w self _ _ E).
Qed.

Lemma stable_deque_of self : stable (deque_of self).
Proof.
  unfold deque_of. apply stable_bind; [apply stable_attr|].
  intros []; first [apply stable_ret | apply stable_wrong].
Qed.

Lemma stable_coll_of self : stable (coll_of self).
Proof.
  unfold coll_of. apply stable_bind; [apply stable_attr|].
  intros []; first [apply stable_ret | apply stable_wrong].
Qed.

Lemma stable_popleft self : stable (popleft self).
Proof.
  intros w. unfold stable_on, popleft, deque_of, attr, bind, load.
  destruct (heap w !! self) as [o|] eqn:E; [|done].
  destruct o; cbn; try done; try apply extends_refl.
  destruct actions; cbn; [apply extends_refl|].
  eapply extends_trans; [|by apply extends_same_heap].
  by apply (extends_put w self _ _ E).
Qed.

Lemma stable_set_started self b : stable (set_started self b).
Proof.
  intros w. unfold stable_on, set_started, bind, load.
  destruct (heap w !! self) as [o|] eqn:E; [|done].
  destruct o; try done. cbn. apply (extends_put w self _ _ E).
  split; [done|]. by destruct actions.
Qed.

Lemma deque_of_inv self w q w1 :
  deque_of self w = Ret q w1 -> w1 = w /\ heap w !! self = Some (SequenceAction q).
Proof.
  unfold deque_of, attr, bind, load.
  destruct (heap w !! self) as [o|]; [|done].
  destruct o; cbn; try done. by intros [= -> ->].
Qed.

Lemma coll_of_inv self w c w1 :
  coll_of self w = Ret c w1 ->
  w1 = w /\ exists st, heap w !! self = Some (SetAction c st).
Proof.
  unfold coll_of, attr, bind, load.
  destruct (heap w !! self) as [o|]; [|done].
  destruct o; cbn; try done. intros [= -> ->]. eauto.
Qed.

Lemma stable_on_store w l o o' :
  heap w !! l = Some o -> evolves o o' -> stable_on w (store l o').
Proof. intros Hl He. exact (extends_put w l o o' Hl He). Qed.

Lemma stable_on_set_coll w self c c' st :
  heap w !! self = Some (SetAction c st) ->
  (is_filter (SetAction c st) = true -> is_filter (SetAction c' st) = true) ->
  stable_on w (set_coll self c').
Proof.
  intros Hs Hf. unfold stable_on, set_coll, bind, load. rewrite Hs. cbn.
  by apply (extends_put w self _ _ Hs).
Qed.

Lemma pop_source_filter c a c' st :
  pop_source c = Some (a, c') ->
  is_filter (SetAction c st) = true -> is_filter (SetAction c' st) = true.
Proof.
  destruct c as [l|src]; cbn; [done|].
  destruct (pop_source src) as [[a0 src']|]; [|done]. by intros [= <- <-].
Qed.

Section Stable.

Variable call : method -> loc -> list value -> M value.
Hypothesis Hcall : forall m l args, stable (call m l args).

Ltac stab :=
  repeat first
    [ apply stable_ret | apply stable_raise | apply stable_wrong
    | apply stable_out_of_fuel | apply stable_log | apply stable_attr
    | apply stable_load | apply stable_deque_of | apply stable_coll_of
    | apply stable_popleft | apply stable_set_started
    | apply stable_wait_action_start | apply stable_wait_action_update
    | apply Hcall
    | match goal with
      | |- stable (bind _ _) => apply stable_bind; [|intros ?]
      | |- stable (if _ then _ else _) => apply stable_if
      | |- stable (match ?x with _ => _ end) => destruct x
      end ].

Lemma stable_call_on v m args : stable (call_on call v m args).
Proof. unfold call_on. stab. Qed.

Lemma stable_run_script s : stable (run_script call s).
Proof. induction s as [|[t c] s IH]; cbn; stab. exact IH. Qed.

Lemma stable_retire self front : stable (retire call self front).
Proof. unfold retire. stab. Qed.

Lemma stable_sequence_action_loop n self front dt :
  stable (sequence_action_loop call n self front dt).
Proof.
  revert front. induction n as [|n IH]; intros front; [apply stable_out_of_fuel|].
  rewrite sequence_action_loop_S. stab; try apply stable_retire; apply IH.
Qed.

Lemma stable_sequence_action_add_action self a :
  stable (sequence_action_add_action call self a).
Proof.
  intros w. unfold sequence_action_add_action.
  apply stable_on_bind; [apply stable_deque_of|].
  intros q w1 [-> Hs]%deque_of_inv.
  apply stable_on_bind; [by apply (stable_on_store w self _ _ Hs)|].
  intros _ w1 _. revert w1.
  change (stable (q' <- deque_of self;;
                  if (length q' =? 1)%nat
                  then target <- attr self "action";;
                       call_on call target start [];;; ret VNone
                  else ret VNone)).
  stab. apply stable_call_on.
Qed.

Lemma stable_check_continue_and_end a : stable (check_continue_and_end call a).
Proof. unfold check_continue_and_end. stab. Qed.

Lemma stable_accept k a : stable (accept call k a).
Proof.
  induction k as [|k IH]; cbn; stab; try apply stable_check_continue_and_end.
  exact IH.
Qed.

Lemma stable_for_list n self i body :
  (forall a, stable (body a)) -> stable (for_list n self i body).
Proof.
  intros Hbody. revert i. induction n as [|n IH]; intros i; [apply stable_out_of_fuel|].
  rewrite for_list_S. stab; [apply Hbody|apply IH].
Qed.

Lemma stable_for_filter n self body :
  (forall a, stable (body a)) -> stable (for_filter call n self body).
Proof.
  intros Hbody. induction n as [|n IH]; [apply stable_out_of_fuel|].
  rewrite for_filter_S. intros w.
  apply stable_on_bind; [apply stable_coll_of|].
  intros c w1 [-> [st Hs]]%coll_of_inv.
  destruct (pop_source c) as [[a c']|] eqn:Ep; [|apply stable_ret].
  apply stable_on_bind.
  { eapply stable_on_set_coll; [exact Hs|]. by eapply pop_source_filter. }
  intros _ w1 _. revert w1.
  change (stable (keep <- accept call (layers c) a;;
                  if keep then body a;;; for_filter call n self body
                  else for_filter call n self body)).
  stab; try apply stable_accept; try apply Hbody; apply IH.
Qed.

Lemma stable_for_each n self body :
  (forall a, stable (body a)) -> stable (for_each call n self body).
Proof.
  intros Hbody. unfold for_each. stab.
  - by apply stable_for_list.
  - by apply stable_for_filter.
Qed.

Lemma stable_set_action_start n self : stable (set_action_start call n self).
Proof.
  unfold set_action_start.
  apply stable_bind; [apply stable_for_each; intros a; apply Hcall|].
  intros _. stab.
Qed.

Lemma stable_set_action_update n self dt : stable (set_action_update call n self dt).
Proof.
  intros w. unfold set_action_update.
  apply stable_on_bind; [apply stable_coll_of|].
  intros c w1 [-> [st Hs]]%coll_of_inv.
  apply stable_on_bind.
  { eapply stable_on_set_coll; [exact Hs|done]. }
  intros _ w1 _. revert w1.
  change (stable (for_each call n self (fun a => call update a [VInt dt]);;; ret VNone)).
  apply stable_bind; [apply stable_for_each; intros a; apply Hcall|].
  intros _. stab.
Qed.

Lemma stable_set_action_add_action self a :
  stable (set_action_add_action call self a).
Proof.
  intros w. unfold set_action_add_action.
  apply stable_on_bind; [apply stable_coll_of|].
  intros c w1 [-> [st Hs]]%coll_of_inv.
  destruct c as [l|src]; [|apply stable_raise].
  apply stable_on_bind.
  { eapply stable_on_set_coll; [exact Hs|done]. }
  intros _ w1 _. revert w1.
  change (stable (st0 <- attr self "started";;
                  if truthy st0 then call start a [];;; ret VNone else ret VNone)).
  stab.
Qed.

Lemma stable_body n k m self args : stable (body call n k m self args).
Proof.
  unfold body, action_start, action_update, action_end, action_is_over,
    action_result, custom_hook, custom_is_over, wait_action_is_over,
    callback_action_start, callback_action_is_over, sequence_action_update,
    sequence_action_is_over, set_action_is_over, action_list_update,
    action_list_add_action.
  destruct m, args as [|[] [|? ?]];
    repeat first
      [ apply stable_run_script | apply stable_call_on
      | apply stable_sequence_action_loop | apply stable_set_action_start
      | apply stable_set_action_update | apply stable_sequence_action_add_action
      | apply stable_set_action_add_action
      | progress stab ].
Qed.

Lemma stable_invoke n m self args : stable (invoke call n m self args).
Proof. unfold invoke. stab. apply stable_body. Qed.

End Stable.

Lemma stable_run n m self args : stable (run n m self args).
Proof.
  revert m self args. induction n as [|n IH]; intros m self args.
  - apply stable_out_of_fuel.
  - rewrite run_S. by apply stable_invoke.
Qed.

Lemma run_keeps_shape n m self args w v w' l o :
  run n m self args w = Ret v w' ->
  heap w !! l = Some o ->
  exists o', heap w' !! l = Some o' /\ evolves o o'.
Proof.
  intros Hrun Hl. pose proof (stable_run n m self args w) as H.
  unfold stable_on in H. rewrite Hrun in H.
  exact (Forall2_lookup_l _ _ _ _ _ H Hl).
Qed.

(** ** The base class *)

Lemma inherited_is_over n w l o :
  heap w !! l = Some o ->
  resolve (class_of o) is_over = Some action ->
  run (S n) is_over l [] w = Ret (VBool true) w.
Proof.
  intros Hl Hres.
  destruct o as [| | | | | | [st up en [b|]]]; try discriminate Hres; by exec.
Qed.

(** C10: an instance of the base class [action] answers [is_over()] with
    [True] and [result()] with [None] in every state, and its [start()],
    [update(dt)] and [end()] return [None] and leave the store as it is;
    every action whose class inherits [is_over] from [action] answers
    [True] in every state, and in particular in the state its [start()]
    returns in, before any [update(dt)]. *)
Theorem action_defaults n w l o dt :
  heap w !! l = Some o ->
  (o = Action ->
     run (S n) is_over l [] w = Ret (VBool true) w
     /\ run (S n) result_ l [] w = Ret VNone w
     /\ run (S n) start l [] w = Ret VNone (emit (EStart l) w)
     /\ run (S n) update l [VInt dt] w = Ret VNone (emit (EUpdate l dt) w)
     /\ run (S n) end_ l [] w = Ret VNone (emit (EEnd l) w)
     /\ heap (emit (EStart l) w) = heap w
     /\ heap (emit (EUpdate l dt) w) = heap w
     /\ heap (emit (EEnd l) w) = heap w)
  /\ (resolve (class_of o) is_over = Some action ->
      run (S n) is_over l [] w = Ret (VBool true) w
      /\ forall k v w',
           run k start l [] w = Ret v w' ->
           run (S n) is_over l [] w' = Ret (VBool true) w').
Proof.
  intros Hl. split.
  - intros ->. split_and!; by exec.
  - intros Hres. split; [by eapply inherited_is_over|].
    intros k v w' Hstart.
    destruct (run_keeps_shape _ _ _ _ _ _ _ _ _ Hstart Hl) as (o' & Hl' & Hcls & _).
    eapply inherited_is_over; [exact Hl'|]. by rewrite <- Hcls.
Qed.

Lemma action_defaults_witness :
  let ends := {| sub_start := Some []; sub_update := None;
                 sub_end := Some []; sub_is_over := None |} in
  let w := {| heap := [Action; CustomAction ends]; trace := [] |} in
  run 1 is_over 0 [] w = Ret (VBool true) w
  /\ run 1 is_over 1 [] w = Ret (VBool true) w
  /\ run 1 is_over 1 [] (emit (EStart 1) w) = Ret (VBool true) (emit (EStart 1) w).
Proof.
  intros ends w. split_and!.
  - apply (proj1 (action_defaults 0 w 0 Action 0 eq_refl) eq_refl).
  - apply (proj2 (action_defaults 0 w 1 _ 0 eq_refl) eq_refl).
  - apply (proj2 (proj2 (action_defaults 0 w 1 _ 0 eq_refl) eq_refl) 2 VNone).
    reflexivity.
Defined.

(** ** wait_action cannot be built *)

(** C9: whatever is passed as the duration, [wait_action(time)] raises
    [NameError]: the initializer reads the name [end_time], which no scope
    binds, and no instance is created. *)
Theorem wait_action_init_raises (time : value) (w : world) :
  new_wait_action time w = Raise NameError w.
Proof. reflexivity. Qed.

(** ** The sequential composite: misuse and slips *)

(** C4, as amended: [update(dt)] on a sequential composite with an empty
    queue raises [IndexError] at [self.actions[0]] and leaves every object
    as it was; the guard is in the caller: [action_list.update] asks
    [is_over()] first and then does nothing. *)
Theorem sequence_update_empty n w s dt :
  heap w !! s = Some (SequenceAction []) ->
  run (S n) update s [VInt dt] w = Raise IndexError (emit (EUpdate s dt) w)
  /\ heap (emit (EUpdate s dt) w) = heap w
  /\ forall al, heap w !! al = Some (ActionList s) ->
       run (S (S n)) update al [VInt dt] w = Ret VNone (emit (EUpdate al dt) w).
Proof.
  intros Hs. repeat split.
  - by exec.
  - intros al Hal. by exec.
Qed.

Lemma sequence_update_empty_witness :
  let w := {| heap := [SequenceAction []; ActionList 0]; trace := [] |} in
  run 1 update 0 [VInt 1] w = Raise IndexError (emit (EUpdate 0 1) w)
  /\ run 2 update 1 [VInt 1] w = Ret VNone (emit (EUpdate 1 1) w).
Proof.
  intros w.
  destruct (sequence_update_empty 0 w 0 1 eq_refl) as (H1 & _ & H2).
  split; [exact H1 | exact (H2 1 eq_refl)].
Defined.

(** C4, as stated, fails: on a freshly built sequential composite
    [update(1)] does not return normally, it raises [IndexError]. *)
Lemma sequence_update_empty_counterexample :
  (s <- new_sequence_action;; run 3 update s [VInt 1]) empty_world
  = Raise IndexError {| heap := [SequenceAction []]; trace := [EUpdate 0 1] |}.
Proof. reflexivity. Qed.

(** C5: on a sequential composite with an empty queue, [add_action(a)]
    appends [a] and then raises [AttributeError] at [self.action.start()]:
    the composite has no attribute [action], so [a.start()] is not called
    (the trace does not grow). *)
Theorem sequence_add_action_first n w s a :
  heap w !! s = Some (SequenceAction []) ->
  run (S n) add_action s [VRef a] w
  = Raise AttributeError (put s (SequenceAction [a]) w)
  /\ trace (put s (SequenceAction [a]) w) = trace w.
Proof. intros Hs. split; by exec. Qed.

Lemma sequence_add_action_first_witness :
  (s <- new_sequence_action;; a <- new_action;; run 1 add_action s [VRef a])
    empty_world
  = Raise AttributeError {| heap := [SequenceAction [1]; Action]; trace := [] |}.
Proof.
  exact (proj1 (sequence_add_action_first 0
                  {| heap := [SequenceAction []; Action]; trace := [] |} 0 1 eq_refl)).
Defined.

(** With something already queued, [add_action(a)] appends [a] to the back
    and returns. *)
Lemma sequence_add_action_later n w s x q a :
  heap w !! s = Some (SequenceAction (x :: q)) ->
  run (S n) add_action s [VRef a] w
  = Ret VNone (put s (SequenceAction (x :: q ++ [a])) w).
Proof.
  intros Hs. exec. rewrite length_app. cbn.
  by replace (length q + 1 =? 0)%nat with false
    by (symmetry; apply Nat.eqb_neq; lia).
Qed.

(** The block that retires the front pops it before it calls its [end()]:
    [end()] runs on a store in which the deque has already lost it. *)
Lemma retire_pops_first call s front a q w :
  heap w !! s = Some (SequenceAction (a :: q)) ->
  retire call s front w
  = (call end_ front [];;;
     q' <- deque_of s;;
     match q' with
     | [] => ret None
     | front' :: _ => call start front' [];;; ret (Some front')
     end) (emit (EPopleft s a) (put s (SequenceAction q) w)).
Proof. intros Hs. unfold retire. by exec. Qed.

(** C2: a front child that is over and whose [end()] adds [y] to the
    composite it sits in, as its only child.  [update(dt)] pops the child,
    then calls its [end()]; the re-entrant [add_action(y)] finds the queue
    empty, appends [y] and raises [AttributeError]: [y] is the new front but
    is never started, and the error leaves [update]. *)
Theorem sequence_update_end_adds n w s x y cls dt :
  heap w !! s = Some (SequenceAction [x]) ->
  heap w !! x = Some (CustomAction cls) ->
  sub_is_over cls = None ->
  sub_end cls = Some [AddAction s y] ->
  exists w',
    run (S (S (S n))) update s [VInt dt] w = Raise AttributeError w'
    /\ heap w' !! s = Some (SequenceAction [y])
    /\ trace w' = trace w ++ [EUpdate s dt; EPopleft s x; EEnd x].
Proof.
  intros Hs Hx Hover Hend.
  assert (x <> s) by (intros ->; congruence).
  destruct cls as [st up en io]. cbn in Hover, Hend. subst io en.
  eexists. split.
  - exec. unfold retire. exec. unfold resolve. exec. reflexivity.
  - split; exec; [done|]. by rewrite <- !app_assoc.
Qed.

(** The state of C2 built by a host that goes on after the failed first
    [add_action] (its [AttributeError] leaves the child queued). *)
Lemma sequence_update_end_adds_witness :
  let end_adds := {| sub_start := None; sub_update := None;
                     sub_end := Some [AddAction 0 2]; sub_is_over := None |} in
  exists w',
    (s <- new_sequence_action;;
     x <- new_custom_action end_adds;;
     y <- new_action;;
     attempt (run 3 add_action s [VRef x]);;;
     run 3 update s [VInt 1]) empty_world
    = Raise AttributeError w'
    /\ heap w' !! 0 = Some (SequenceAction [2])
    /\ trace w' = [EUpdate 0 1; EPopleft 0 1; EEnd 1].
Proof.
  intros end_adds.
  exact (sequence_update_end_adds 0
           {| heap := [SequenceAction [1]; CustomAction end_adds; Action]; trace := [] |}
           0 1 2 end_adds 1 eq_refl eq_refl eq_refl eq_refl).
Defined.

(** ** The wrapper *)

(** C8: when the wrapped sequential composite has something queued,
    [action_list.update(dt)] calls [self.sequence.update()] without [dt]:
    the call raises [TypeError] before the composite's [update] runs, so no
    child is updated. *)
Theorem action_list_update_raises n w al s a q dt :
  heap w !! al = Some (ActionList s) ->
  heap w !! s = Some (SequenceAction (a :: q)) ->
  run (S (S n)) update al [VInt dt] w = Raise TypeError (emit (EUpdate al dt) w).
Proof. intros Hal Hs. by exec. Qed.

(** The state of C8 is reached through the wrapper's own operations, by a
    host that goes on after the failed first [add_action]. *)
Lemma action_list_update_raises_witness :
  (a <- new_action;;
   al <- new_action_list;;
   attempt (run 3 add_action al [VRef a]);;;
   run 3 update al [VInt 1]) empty_world
  = Raise TypeError
      {| heap := [Action; SequenceAction [0]; ActionList 1]; trace := [EUpdate 2 1] |}.
Proof.
  exact (action_list_update_raises 1
           {| heap := [Action; SequenceAction [0]; ActionList 1]; trace := [] |}
           2 1 0 [] 1 eq_refl eq_refl).
Defined.

(** ** The sequential composite over leaves *)

Lemma retire_leaf_last n w s front o :
  heap w !! s = Some (SequenceAction [front]) ->
  heap w !! front = Some o -> leaf o = true ->
  retire (run (S n)) s front w = Ret None (retired s front [] w).
Proof.
  intros Hs Hf Hleaf.
  assert (front <> s) by eauto using leaf_not_composite.
  rewrite (retire_pops_first _ _ _ _ _ _ Hs). unfold bind at 1.
  erewrite run_end_leaf; [|by exec|done].
  by exec.
Qed.

Lemma retire_leaf_next n w s front o f' r o' :
  heap w !! s = Some (SequenceAction (front :: f' :: r)) ->
  heap w !! front = Some o -> leaf o = true ->
  heap w !! f' = Some o' -> leaf o' = true ->
  retire (run (S n)) s front w
  = Ret (Some f') (activated f' o' (retired s front (f' :: r) w)).
Proof.
  intros Hs Hf Hleaf Hf' Hleaf'.
  assert (front <> s) by eauto using leaf_not_composite.
  assert (f' <> s) by eauto using leaf_not_composite.
  rewrite (retire_pops_first _ _ _ _ _ _ Hs). unfold bind at 1.
  erewrite run_end_leaf; [|by exec|done].
  norm. erewrite run_start_leaf; [done|by norm|done].
Qed.


Section Drain.

Variables (s : loc) (dt : Z).

Lemma subject_head_done (f : loc) r (done rest : list loc) :
  f :: r = done ++ rest -> f ∈ done ++ take 1 rest.
Proof.
  destruct done as [|d done]; cbn.
  - intros <-. cbn. set_solver.
  - intros [= <- _]. set_solver.
Qed.




End Drain.

(** ** One update as a function of the world *)

Lemma loop_drain n k dt s r : forall f w,
  heap w !! s = Some (SequenceAction (f :: r)) ->
  leaves w (f :: r) ->
  length r < k ->
  sequence_action_loop (run (S n)) k s f dt w = Ret VNone (drain dt s f r w).
Proof.
  revert k. induction r as [|f' r' IH]; intros k f w Hs Hlv Hk.
  all: destruct k as [|k]; [cbn in Hk; lia|].
  all: apply leaves_cons in Hlv as [(o & Hf & Hleaf) Hlv].
  all: assert (Hfs : f <> s) by eauto using leaf_not_composite.
  all: rewrite sequence_action_loop_S; unfold bind at 1.
  all: rewrite (run_is_over_leaf _ _ _ _ Hf Hleaf); cbn [truthy drain]; rewrite Hf.
  all: destruct (over o) eqn:Hov.
  - unfold bind. by erewrite retire_leaf_last.
  - unfold bind at 1. rewrite (run_update_leaf _ _ _ _ dt Hf Hleaf).
    set (w1 := put f (on_update dt o) (emit (EUpdate f dt) w)).
    assert (Hf1 : heap w1 !! f = Some (on_update dt o)) by (subst w1; by norm).
    assert (Hs1 : heap w1 !! s = Some (SequenceAction [f])) by (subst w1; by norm).
    unfold bind at 1.
    rewrite (run_is_over_leaf _ _ _ _ Hf1 (leaf_on_update _ _ Hleaf)). cbn [truthy].
    destruct (over (on_update dt o)); [|done].
    unfold bind. by erewrite retire_leaf_last; [|done|done|by apply leaf_on_update].
  - apply leaves_cons in Hlv as [(o' & Hf' & Hleaf') Hlv].
    assert (Hf's : f' <> s) by eauto using leaf_not_composite.
    assert (Hsr : s ∉ r').
    { intros Hin. destruct (Hlv s Hin) as (os & Hos & Hls).
      rewrite Hs in Hos. by injection Hos as <-. }
    unfold bind. erewrite retire_leaf_next; [|done..]. rewrite Hf'.
    apply IH; [unfold activated, retired; by norm| |cbn in Hk; lia].
    apply leaves_cons. split.
    + exists (on_start o'). split; [unfold activated, retired; by norm|].
      by apply leaf_on_start.
    + apply leaves_activated; [done|]. unfold retired.
      by apply leaves_emit, leaves_emit, leaves_put_other.
  - unfold bind at 1. rewrite (run_update_leaf _ _ _ _ dt Hf Hleaf).
    set (w1 := put f (on_update dt o) (emit (EUpdate f dt) w)).
    assert (Hf1 : heap w1 !! f = Some (on_update dt o)) by (subst w1; by norm).
    assert (Hs1 : heap w1 !! s = Some (SequenceAction (f :: f' :: r')))
      by (subst w1; by norm).
    assert (Hlv1 : leaves w1 (f' :: r'))
      by (subst w1; apply leaves_put_leaf; [by apply leaf_on_update|done]).
    unfold bind at 1.
    rewrite (run_is_over_leaf _ _ _ _ Hf1 (leaf_on_update _ _ Hleaf)). cbn [truthy].
    destruct (over (on_update dt o)); [|done].
    clearbody w1.
    apply leaves_cons in Hlv1 as [(o' & Hf' & Hleaf') Hlv1].
    assert (Hf's : f' <> s) by eauto using leaf_not_composite.
    assert (Hsr : s ∉ r').
    { intros Hin. destruct (Hlv1 s Hin) as (os & Hos & Hls).
      rewrite Hs1 in Hos. by injection Hos as <-. }
    unfold bind. erewrite retire_leaf_next; [|done|done|by apply leaf_on_update|done..].
    rewrite Hf'.
    apply IH; [unfold activated, retired; by norm| |cbn in Hk; lia].
    apply leaves_cons. split.
    + exists (on_start o'). split; [unfold activated, retired; by norm|].
      by apply leaf_on_start.
    + apply leaves_activated; [done|]. unfold retired.
      by apply leaves_emit, leaves_emit, leaves_put_other.
Qed.

Lemma sequence_update_drain n w s f r dt :
  heap w !! s = Some (SequenceAction (f :: r)) ->
  leaves w (f :: r) ->
  length r <= n ->
  run (S (S n)) update s [VInt dt] w
  = Ret VNone (drain dt s f r (emit (EUpdate s dt) w)).
Proof.
  intros Hs Hlv Hn. rewrite run_S. norm.
  apply loop_drain; [done|by apply leaves_emit|lia].
Qed.

Lemma take_1_head (f : loc) r (done rest : list loc) :
  f :: r = done ++ rest -> take 1 (done ++ rest) = [f].
Proof. by intros <-. Qed.

Lemma drain_spec dt s r : forall f w,
  heap w !! s = Some (SequenceAction (f :: r)) ->
  leaves w (f :: r) ->
  exists done rest tr, drain_ok s w f r (drain dt s f r w) done rest tr.
Proof.
  induction r as [|f' r' IH]; intros f w Hs Hlv.
  all: apply leaves_cons in Hlv as [(o & Hf & Hleaf) Hlv].
  all: assert (Hfs : f <> s) by eauto using leaf_not_composite.
  all: cbn [drain]; rewrite Hf.
  all: set (w1 := if over o then w
                  else put f (on_update dt o) (emit (EUpdate f dt) w)).
  all: set (pre := if over o then [] else [EUpdate f dt]).
  all: assert (Hs1 : heap w1 !! s = Some (SequenceAction (f :: _)))
         by (subst w1; destruct (over o); by norm).
  all: assert (Htr1 : trace w1 = trace w ++ pre)
         by (subst w1 pre; destruct (over o); cbn; by rewrite ?app_nil_r).
  all: assert (Hfr1 : forall l, l <> f -> heap w1 !! l = heap w !! l)
         by (intros l Hl; subst w1; destruct (over o); by norm).
  all: assert (Hpre : filter (fun e => is_update e = false) pre = [])
         by (subst pre; by destruct (over o)).
  all: assert (Hlv1 : leaves w1 _)
         by (subst w1; destruct (over o); [exact Hlv|];
             apply leaves_put_leaf; [by apply leaf_on_update|exact Hlv]).
  all: clearbody w1 pre.
  all: destruct (if over o then true else over (on_update dt o)) eqn:Hfin.
  all: try (
    (* the front is still running: the call returns *)
    match goal with
    | |- exists done rest tr, drain_ok _ _ ?f0 ?r0 ?w0 done rest tr =>
        is_var w0;
        match goal with H : trace w0 = _ ++ ?p |- _ => exists [], (f0 :: r0), p end
    end;
    unfold drain_ok; split_and!;
    [ done | done | done | done
    | intros l Hl Hin;
      match goal with H : forall l, l <> _ -> _ |- _ => apply H end;
      cbn in Hin; set_solver ]).
  - exists [f], [], (pre ++ [EPopleft s f; EEnd f]). unfold drain_ok. split_and!.
    + done.
    + unfold retired. by norm.
    + unfold retired. cbn. rewrite Htr1. by rewrite <- !app_assoc.
    + by rewrite filter_app, Hpre.
    + intros l Hl Hin. unfold retired. norm. apply Hfr1. set_solver.
  - apply leaves_cons in Hlv1 as [(o' & Hf' & Hleaf') Hlv1].
    assert (Hf's : f' <> s) by eauto using leaf_not_composite.
    assert (Hsr : s ∉ r').
    { intros Hin. destruct (Hlv1 s Hin) as (os & Hos & Hls).
      rewrite Hs1 in Hos. by injection Hos as <-. }
    rewrite Hf'.
    set (w3 := activated f' o' (retired s f (f' :: r') w1)).
    destruct (IH f' w3) as (done & rest & tr & Hsplit & Hs' & Htr & Hlife & Hframe).
    { subst w3. unfold activated, retired. by norm. }
    { apply leaves_cons. split.
      - exists (on_start o'). split; [subst w3; unfold activated, retired; by norm|].
        by apply leaf_on_start.
      - subst w3. apply leaves_activated; [done|]. unfold retired.
        by apply leaves_emit, leaves_emit, leaves_put_other. }
    exists (f :: done), rest, (pre ++ [EPopleft s f; EEnd f; EStart f'] ++ tr).
    unfold drain_ok. split_and!.
    + cbn. by rewrite Hsplit.
    + done.
    + rewrite Htr. subst w3. unfold activated, retired. cbn. rewrite Htr1.
      by rewrite <- !app_assoc.
    + rewrite filter_app, Hpre. cbn [app lifecycle].
      rewrite (take_1_head _ _ _ _ Hsplit).
      rewrite !filter_cons. cbn [is_update]. 
      repeat (destruct (decide _) as [_|Hd]; [|by destruct Hd]).
      cbn. by rewrite Hlife.
    + intros l Hl Hin.
      assert (Hf'in : f' ∈ done ++ take 1 rest) by eauto using subject_head_done.
      rewrite Hframe; [|done|set_solver].
      subst w3. unfold activated, retired.
      assert (l <> f') by set_solver. norm. apply Hfr1. set_solver.
Qed.

(** ** The children a call activates, and the state it leaves them in *)







Lemma abc_leaves : leaves abc_world [1; 2; 3].
Proof.
  intros c Hc. 
  apply elem_of_cons in Hc as [->|Hc]; [by eexists|].
  apply elem_of_cons in Hc as [->|Hc]; [by eexists|].
  apply elem_of_cons in Hc as [->|Hc]; [by eexists|].
  by apply elem_of_nil in Hc.
Defined.



(** ** The parallel composite over leaves: start and add_action *)

Lemma start_all_trace l w :
  leaves w l -> trace (start_all l w) = trace w ++ map EStart l.
Proof.
  revert w. induction l as [|a l IH]; intros w Hl; cbn.
  - by rewrite app_nil_r.
  - apply leaves_cons in Hl as [(o & Ho & Hleaf) Hl]. rewrite Ho.
    rewrite IH by (by apply leaves_activated).
    cbn. by rewrite <- app_assoc.
Qed.

Lemma start_all_other l w s :
  s ∉ l -> heap (start_all l w) !! s = heap w !! s.
Proof.
  revert w. induction l as [|a l IH]; intros w Hs; cbn; [done|].
  destruct (heap w !! a) as [o|] eqn:Ho; [|done].
  rewrite IH by set_solver. cbn. apply list_lookup_insert_ne. set_solver.
Qed.

Lemma start_all_leaves l l' w :
  leaves w l -> leaves w l' -> leaves (start_all l w) l'.
Proof.
  revert w. induction l as [|a l IH]; intros w Hl Hl'; cbn; [done|].
  apply leaves_cons in Hl as [(o & Ho & Hleaf) Hl]. rewrite Ho.
  apply IH; by apply leaves_activated.
Qed.

(** The loop of [set_action.start] from index [length pre] on. *)
Lemma for_list_start n k w s pre suf st :
  heap w !! s = Some (SetAction (CList (pre ++ suf)) st) ->
  leaves w suf ->
  length suf < k ->
  for_list k s (length pre) (fun a => run (S n) start a []) w
  = Ret tt (start_all suf w).
Proof.
  revert k w pre. induction suf as [|a suf IH]; intros k w pre Hs Hl Hk.
  - destruct k as [|k]; [cbn in Hk; lia|]. rewrite for_list_S. norm.
    rewrite lookup_ge_None_2; [done|]. rewrite length_app. cbn. lia.
  - destruct k as [|k]; [cbn in Hk; lia|]. rewrite for_list_S. norm.
    rewrite lookup_app_r by lia. rewrite Nat.sub_diag. cbn.
    apply leaves_cons in Hl as [(o & Ho & Hleaf) Hl].
    assert (Has : a <> s) by eauto using leaf_not_set.
    rewrite (run_start_leaf _ _ _ _ Ho Hleaf). rewrite Ho.
    replace (S (length pre)) with (length (pre ++ [a]))
      by (rewrite length_app; cbn; lia).
    apply IH.
    + unfold activated. norm. by rewrite <- app_assoc.
    + by apply leaves_activated.
    + cbn in Hk. lia.
Qed.

Lemma for_list_start_all n k w s l st :
  heap w !! s = Some (SetAction (CList l) st) ->
  leaves w l ->
  length l < k ->
  for_list k s 0 (fun a => run (S n) start a []) w = Ret tt (start_all l w).
Proof. exact (for_list_start n k w s [] l st). Qed.

(** [set_action.start()] starts every child it holds, in order, and sets
    the flag. *)
Lemma set_start_leaves n w s l st :
  heap w !! s = Some (SetAction (CList l) st) ->
  leaves w l ->
  length l <= n ->
  run (S (S n)) start s [] w
  = Ret VNone (put s (SetAction (CList l) true) (start_all l (emit (EStart s) w))).
Proof.
  intros Hs Hl Hn.
  assert (Hsl : s ∉ l) by eauto using leaves_not_in_set.
  rewrite run_S. norm. unfold set_action_start, for_each. norm.
  erewrite for_list_start_all; [|done|by apply leaves_emit|lia].
  fold (emit (EStart s) w).
  norm. rewrite start_all_other by done. by norm.
Qed.

(** Before [start()], [add_action(a)] appends [a] and calls nothing. *)
Lemma set_add_pending n w s l a :
  heap w !! s = Some (SetAction (CList l) false) ->
  run (S n) add_action s [VRef a] w
  = Ret VNone (put s (SetAction (CList (l ++ [a])) false) w).
Proof. intros Hs. by exec. Qed.

(** After [start()], [add_action(a)] appends [a] and starts it. *)
Lemma set_add_started n w s l a o :
  heap w !! s = Some (SetAction (CList l) true) ->
  heap w !! a = Some o -> leaf o = true ->
  run (S (S n)) add_action s [VRef a] w
  = Ret VNone (activated a o (put s (SetAction (CList (l ++ [a])) true) w)).
Proof.
  intros Hs Ha Hleaf.
  assert (Has : a <> s) by eauto using leaf_not_set.
  rewrite run_S. norm.
  erewrite run_start_leaf; [done|by norm|done].
Qed.

Lemma starts_of_app c tr1 tr2 :
  starts_of c (tr1 ++ tr2) = starts_of c tr1 + starts_of c tr2.
Proof. unfold starts_of. by rewrite filter_app, length_app. Qed.

Lemma starts_of_cons c e tr :
  starts_of c (e :: tr)
  = (if decide (e = EStart c) then 1 else 0) + starts_of c tr.
Proof.
  unfold starts_of. rewrite filter_cons.
  by destruct (decide (e = EStart c)).
Qed.

Lemma starts_of_map_absent c l : c ∉ l -> starts_of c (map EStart l) = 0.
Proof.
  induction l as [|a l IH]; intros Hc; [done|].
  cbn [map]. rewrite starts_of_cons.
  destruct (decide (EStart a = EStart c)) as [[= ->]|_]; [set_solver|].
  apply IH. set_solver.
Qed.

Lemma starts_of_map_once c l :
  NoDup l -> c ∈ l -> starts_of c (map EStart l) = 1.
Proof.
  induction l as [|a l IH]; intros Hnd Hc; [by apply elem_of_nil in Hc|].
  apply NoDup_cons in Hnd as [Ha Hnd].
  cbn [map]. rewrite starts_of_cons.
  apply elem_of_cons in Hc as [->|Hc].
  - rewrite starts_of_map_absent by done.
    by destruct (decide (EStart a = EStart a)).
  - rewrite IH by done.
    destruct (decide (EStart a = EStart c)) as [[= ->]|_]; done.
Qed.

Lemma add_pending_all n w s l pre :
  heap w !! s = Some (SetAction (CList l) false) ->
  add_actions (S n) s pre w
  = Ret tt (put s (SetAction (CList (l ++ pre)) false) w).
Proof.
  revert w l. induction pre as [|a pre IH]; intros w l Hs; cbn.
  - rewrite app_nil_r. by rewrite put_same.
  - unfold bind. rewrite (set_add_pending _ _ _ _ _ Hs).
    rewrite (IH _ (l ++ [a])) by (by norm).
    by rewrite put_put, <- app_assoc.
Qed.

Lemma add_started_all n w s l post :
  heap w !! s = Some (SetAction (CList l) true) ->
  leaves w post ->
  exists w',
    add_actions (S (S n)) s post w = Ret tt w'
    /\ trace w' = trace w ++ map EStart post
    /\ heap w' !! s = Some (SetAction (CList (l ++ post)) true).
Proof.
  revert w l. induction post as [|a post IH]; intros w l Hs Hl; cbn.
  - exists w. by rewrite !app_nil_r.
  - apply leaves_cons in Hl as [(o & Ho & Hleaf) Hl].
    assert (Has : a <> s) by eauto using leaf_not_set.
    assert (Hsp : s ∉ post) by eauto using leaves_not_in_set.
    unfold bind. rewrite (set_add_started _ _ _ _ _ _ Hs Ho Hleaf).
    destruct (IH (activated a o (put s (SetAction (CList (l ++ [a])) true) w))
                (l ++ [a])) as (w' & Hrun & Htr & Hs').
    { unfold activated. by norm. }
    { apply leaves_activated; [done|]. by apply leaves_put_other. }
    exists w'. split; [done|]. split.
    + rewrite Htr. cbn. by rewrite <- app_assoc.
    + by rewrite Hs', <- app_assoc.
Qed.

(** The same run keeps the leaves of the store leaves. *)
Lemma add_started_all_leaves n w s l post :
  heap w !! s = Some (SetAction (CList l) true) ->
  leaves w post ->
  exists w',
    add_actions (S (S n)) s post w = Ret tt w'
    /\ trace w' = trace w ++ map EStart post
    /\ heap w' !! s = Some (SetAction (CList (l ++ post)) true)
    /\ (forall l', s ∉ l' -> leaves w l' -> leaves w' l').
Proof.
  revert w l. induction post as [|a post IH]; intros w l Hs Hl; cbn.
  - exists w. by rewrite !app_nil_r.
  - apply leaves_cons in Hl as [(o & Ho & Hleaf) Hl].
    assert (Has : a <> s) by eauto using leaf_not_set.
    assert (Hsp : s ∉ post) by eauto using leaves_not_in_set.
    unfold bind. rewrite (set_add_started _ _ _ _ _ _ Hs Ho Hleaf).
    destruct (IH (activated a o (put s (SetAction (CList (l ++ [a])) true) w))
                (l ++ [a])) as (w' & Hrun & Htr & Hs' & Hkeep).
    { unfold activated. by norm. }
    { apply leaves_activated; [done|]. by apply leaves_put_other. }
    exists w'. split_and!; [done| | |].
    + rewrite Htr. cbn. by rewrite <- app_assoc.
    + by rewrite Hs', <- app_assoc.
    + intros l' Hsl Hl'. apply Hkeep; [done|].
      apply leaves_activated; [done|]. by apply leaves_put_other.
Qed.

(** ** The parallel composite over leaves: update *)

Lemma for_filter_leaves n k w s l st dt :
  heap w !! s = Some (SetAction (CFilter (CList l)) st) ->
  leaves w l ->
  length l < k ->
  for_filter (run (S n)) k s (fun a => run (S n) update a [VInt dt]) w
  = Ret tt (sweep dt s st l w).
Proof.
  revert k w. induction l as [|c l IH]; intros k w Hs Hl Hk.
  all: destruct k as [|k]; [cbn in Hk; lia|]; rewrite for_filter_S; norm.
  - done.
  - apply leaves_cons in Hl as [(o & Ho & Hleaf) Hl].
    assert (Hcs : c <> s) by eauto using leaf_not_set.
    assert (Hsl : s ∉ l) by eauto using leaves_not_in_set.
    unfold check_continue_and_end. norm.
    erewrite run_is_over_leaf; [|by norm|done].
    destruct (over o) eqn:Hov; cbn.
    + erewrite run_end_leaf; [|by norm|done]. cbn.
      apply IH; [by norm| |cbn in Hk; lia].
      by apply leaves_emit, (leaves_put_other w).
    + erewrite run_update_leaf; [|by norm|done].
      apply IH; [by norm| |cbn in Hk; lia].
      apply leaves_put_leaf; [by apply leaf_on_update|].
      by apply leaves_emit, (leaves_put_other w).
Qed.

Lemma pass_events_ext dt w w2 l :
  (forall x, x ∈ l -> heap w2 !! x = heap w !! x) ->
  pass_events dt w2 l = pass_events dt w l.
Proof.
  induction l as [|c l IH]; intros H; [done|].
  unfold pass_events in *. cbn. f_equal.
  - unfold pass_event. rewrite H; [done|set_solver].
  - apply IH. intros x Hx. apply H. set_solver.
Qed.

Lemma sweep_trace dt s st l w :
  NoDup l -> leaves w l -> s ∉ l ->
  trace (sweep dt s st l w) = trace w ++ pass_events dt w l.
Proof.
  revert w. induction l as [|c l IH]; intros w Hnd Hl Hs; cbn.
  - by rewrite app_nil_r.
  - apply NoDup_cons in Hnd as [Hc Hnd].
    apply leaves_cons in Hl as [(o & Ho & Hleaf) Hl].
    assert (Hcs : c <> s) by set_solver.
    assert (Hsl : s ∉ l) by set_solver.
    unfold pass_event at 1. rewrite Ho.
    pose proof (pass_events_ext dt w) as Hsame.
    destruct (over o).
    + rewrite IH; try done.
      * cbn. rewrite <- app_assoc. cbn. f_equal. f_equal.
        apply Hsame. intros x Hx. cbn.
        apply list_lookup_insert_ne. set_solver.
      * by apply leaves_emit, (leaves_put_other w).
    + rewrite IH; try done.
      * cbn. rewrite <- app_assoc. cbn. f_equal. f_equal.
        apply Hsame. intros x Hx. cbn.
        rewrite !list_lookup_insert_ne; set_solver.
      * apply leaves_put_leaf; [by apply leaf_on_update|].
        by apply leaves_emit, (leaves_put_other w).
Qed.

Lemma sweep_composite dt s st l w :
  heap w !! s = Some (SetAction (CFilter (CList l)) st) ->
  leaves w l ->
  heap (sweep dt s st l w) !! s = Some (SetAction (CFilter (CList [])) st).
Proof.
  revert w. induction l as [|c l IH]; intros w Hs Hl; cbn; [done|].
  apply leaves_cons in Hl as [(o & Ho & Hleaf) Hl].
  assert (Hcs : c <> s) by eauto using leaf_not_set.
  assert (Hsl : s ∉ l) by eauto using leaves_not_in_set.
  rewrite Ho. destruct (over o).
  - apply IH; [by norm|]. by apply leaves_emit, (leaves_put_other w).
  - apply IH; [by norm|].
    apply leaves_put_leaf; [by apply leaf_on_update|].
    by apply leaves_emit, (leaves_put_other w).
Qed.

(** [set_action.update(dt)] over leaves. *)
Lemma set_update_leaves n w s l st dt :
  heap w !! s = Some (SetAction (CList l) st) ->
  leaves w l ->
  length l <= n ->
  run (S (S n)) update s [VInt dt] w
  = Ret VNone
      (sweep dt s st l (put s (SetAction (CFilter (CList l)) st) (emit (EUpdate s dt) w))).
Proof.
  intros Hs Hl Hn.
  assert (Hsl : s ∉ l) by eauto using leaves_not_in_set.
  rewrite run_S. norm. unfold set_action_update, for_each. norm.
  erewrite for_filter_leaves; [done|by norm| |lia].
  by apply (leaves_put_other (emit (EUpdate s dt) w)), leaves_emit.
Qed.

(** Once [self.actions] is an exhausted filter object, [update(dt)] wraps
    it in one more filter and finds nothing to iterate: no child is asked,
    ended or updated. *)
Lemma set_update_exhausted n w s st dt :
  heap w !! s = Some (SetAction (CFilter (CList [])) st) ->
  run (S (S n)) update s [VInt dt] w
  = Ret VNone (put s (SetAction (CFilter (CFilter (CList []))) st)
                 (emit (EUpdate s dt) w)).
Proof. intros Hs. rewrite run_S. norm. unfold set_action_update, for_each. by exec. Qed.

(** C3: the pass of [set_action.update(dt)] over distinct leaves is a
    single one.  The children are taken in list order and each is asked
    [is_over()] and then ended or updated before the next is looked at, so
    a child that is still running is updated before a finished child behind
    it is ended; and the pass leaves [self.actions] an exhausted iterator:
    the next [update] reaches no child, so one that finished during its
    update is never ended. *)
Theorem set_update_single_pass n w s l st dt :
  heap w !! s = Some (SetAction (CList l) st) ->
  NoDup l ->
  leaves w l ->
  length l <= n ->
  exists w',
    run (S (S n)) update s [VInt dt] w = Ret VNone w'
    /\ trace w' = trace w ++ EUpdate s dt :: pass_events dt w l
    /\ heap w' !! s = Some (SetAction (CFilter (CList [])) st)
    /\ forall m dt',
         run (S (S m)) update s [VInt dt'] w'
         = Ret VNone (put s (SetAction (CFilter (CFilter (CList []))) st)
                        (emit (EUpdate s dt') w')).
Proof.
  intros Hs Hnd Hl Hn.
  assert (Hsl : s ∉ l) by eauto using leaves_not_in_set.
  set (w0 := put s (SetAction (CFilter (CList l)) st) (emit (EUpdate s dt) w)).
  assert (Hs0 : heap w0 !! s = Some (SetAction (CFilter (CList l)) st))
    by (subst w0; by norm).
  assert (Hl0 : leaves w0 l)
    by (subst w0; by apply (leaves_put_other (emit (EUpdate s dt) w)), leaves_emit).
  exists (sweep dt s st l w0). split_and!.
  - by apply set_update_leaves.
  - rewrite sweep_trace by done. subst w0. cbn. rewrite <- app_assoc. cbn.
    do 2 f_equal. apply pass_events_ext. intros x Hx. cbn.
    apply list_lookup_insert_ne. set_solver.
  - by apply sweep_composite.
  - intros m dt'. apply set_update_exhausted. by apply sweep_composite.
Qed.

(** A running child [1] in front of a finished child [2]: [1] is updated
    before [2] is ended, and a second [update] reaches neither. *)
Lemma set_update_single_pass_witness :
  let w := {| heap := [SetAction (CList [1; 2]) true; CustomAction running; Action];
              trace := [] |} in
  exists w',
    run 4 update 0 [VInt 1] w = Ret VNone w'
    /\ trace w' = [EUpdate 0 1; EUpdate 1 1; EEnd 2]
    /\ heap w' !! 0 = Some (SetAction (CFilter (CList [])) true)
    /\ forall m dt',
         run (S (S m)) update 0 [VInt dt'] w'
         = Ret VNone (put 0 (SetAction (CFilter (CFilter (CList []))) true)
                        (emit (EUpdate 0 dt') w')).
Proof.
  intros w.
  apply (set_update_single_pass 2 w 0 [1; 2] true 1).
  - reflexivity.
  - by apply (bool_decide_unpack (NoDup [1; 2])).
  - intros c Hc.
    apply elem_of_cons in Hc as [->|Hc]; [by eexists|].
    apply elem_of_cons in Hc as [->|Hc]; [by eexists|].
    by apply elem_of_nil in Hc.
  - cbn. lia.
Defined.

Lemma set_is_over_filter m w s c st :
  heap w !! s = Some (SetAction (CFilter c) st) ->
  run (S m) is_over s [] w = Raise TypeError w.
Proof. intros Hs. by exec. Qed.

Lemma set_add_action_filter m w s c st a :
  heap w !! s = Some (SetAction (CFilter c) st) ->
  run (S m) add_action s [VRef a] w = Raise AttributeError w.
Proof. intros Hs. by exec. Qed.

Lemma set_update_unfold n w s c st dt :
  heap w !! s = Some (SetAction c st) ->
  run (S n) update s [VInt dt] w
  = (for_each (run n) n s (fun a => run n update a [VInt dt]);;; ret VNone)
      (put s (SetAction (CFilter c) st) (emit (EUpdate s dt) w)).
Proof. intros Hs. rewrite run_S. norm. unfold set_action_update. by norm. Qed.

(** Whatever the children do, an [update] that returns leaves
    [self.actions] a filter object. *)
Lemma set_update_leaves_filter n w s c st dt v w' :
  heap w !! s = Some (SetAction c st) ->
  run n update s [VInt dt] w = Ret v w' ->
  exists c' st', heap w' !! s = Some (SetAction (CFilter c') st').
Proof.
  intros Hs Hrun. destruct n as [|n]; [discriminate Hrun|].
  rewrite (set_update_unfold _ _ _ _ _ _ Hs) in Hrun.
  set (w1 := put s (SetAction (CFilter c) st) (emit (EUpdate s dt) w)) in Hrun.
  assert (Hst : stable (for_each (run n) n s (fun a => run n update a [VInt dt]);;;
                        ret VNone)).
  { apply stable_bind; [|intros _; apply stable_ret].
    apply stable_for_each; intros; apply stable_run. }
  specialize (Hst w1). unfold stable_on in Hst. rewrite Hrun in Hst.
  assert (Hs1 : heap w1 !! s = Some (SetAction (CFilter c) st))
    by (subst w1; by norm).
  destruct (Forall2_lookup_l _ _ _ _ _ Hst Hs1) as (o' & Ho' & Hcls & Hfil).
  specialize (Hfil eq_refl).
  destruct o' as [| | | |[l|c'] st'| |]; try discriminate Hfil. eauto.
Qed.

(** C6: while [self.actions] is the list that [__init__] built, [is_over()]
    returns whether it is empty.  After an [update(dt)] that has returned,
    whatever the children, [self.actions] is a filter object and
    [is_over()] raises [TypeError] at [len(self.actions)]; and [update(dt)]
    does return, for one over leaves. *)
Theorem set_is_over_after_update m w s c st :
  heap w !! s = Some (SetAction c st) ->
  (forall l, c = CList l ->
     run (S m) is_over s [] w = Ret (VBool (length l =? 0)%nat) w)
  /\ (forall n dt v w',
        run n update s [VInt dt] w = Ret v w' ->
        run (S m) is_over s [] w' = Raise TypeError w')
  /\ (forall n l dt,
        c = CList l -> leaves w l -> length l <= n ->
        exists w', run (S (S n)) update s [VInt dt] w = Ret VNone w').
Proof.
  intros Hs. split_and!.
  - intros l ->. by exec.
  - intros n dt v w' Hrun.
    destruct (set_update_leaves_filter _ _ _ _ _ _ _ _ Hs Hrun) as (c' & st' & Hs').
    by eapply set_is_over_filter.
  - intros n l dt -> Hl Hn. eexists. by apply set_update_leaves.
Qed.

(** Two children, one of them running, once started. *)
Lemma set_is_over_after_update_witness :
  let w := {| heap := [SetAction (CList [1; 2]) true; CustomAction running; Action];
              trace := [EStart 0; EStart 1; EStart 2] |} in
  run 1 is_over 0 [] w = Ret (VBool false) w
  /\ exists w',
       run 4 update 0 [VInt 1] w = Ret VNone w'
       /\ run 1 is_over 0 [] w' = Raise TypeError w'.
Proof.
  intros w.
  destruct (set_is_over_after_update 0 w 0 (CList [1; 2]) true eq_refl)
    as (Hbefore & Hafter & Hreturns).
  split; [exact (Hbefore _ eq_refl)|].
  destruct (Hreturns 2 [1; 2] 1%Z eq_refl) as [w' Hw'].
  - intros c Hc.
    apply elem_of_cons in Hc as [->|Hc]; [by eexists|].
    apply elem_of_cons in Hc as [->|Hc]; [by eexists|].
    by apply elem_of_nil in Hc.
  - cbn. lia.
  - exists w'. split; [exact Hw'|]. exact (Hafter _ _ _ _ Hw').
Defined.

(** ** The parallel composite: a child handed over after an update *)

(** The pass of [update] starts nobody. *)
Lemma sweep_starts dt s st l : forall w c,
  starts_of c (trace (sweep dt s st l w)) = starts_of c (trace w).
Proof.
  induction l as [|a l IH]; intros w c; cbn; [done|].
  destruct (heap w !! a) as [o|]; [|done].
  destruct (over o); rewrite IH; unfold put, emit; cbn [trace];
    rewrite starts_of_app, starts_of_cons;
    (destruct (decide _) as [Hd|_]; [discriminate Hd|]);
    unfold starts_of; cbn; lia.
Qed.

(** C7, for leaf children, up to the first [update] and after it.  A
    parallel composite that has not been started and holds [l0]; the host
    adds [pre], calls [start()], adds [post], calls [update(dt)] and then
    hands over one more child.
    - The children added before [start()] are appended and not started: the
      trace does not grow.
    - [start()] starts every child then held, in order, and sets the flag.
    - Each child added afterwards, before any [update], is started by its
      [add_action] call.
    - So far a child is started once for each time it is held: exactly once
      when no child is held twice.
    - [update(dt)] returns and leaves [self.actions] a filter object: from
      then on [add_action(a)] raises [AttributeError] at
      [self.actions.append], for every [a]; the child is neither held nor
      started, and nothing changes. *)
Theorem set_add_action_after_update n w s l0 pre post dt :
  heap w !! s = Some (SetAction (CList l0) false) ->
  leaves w (l0 ++ pre ++ post) ->
  length (l0 ++ pre ++ post) <= n ->
  exists w1 w2 w3 w4,
    add_actions (S (S n)) s pre w = Ret tt w1
    /\ trace w1 = trace w
    /\ heap w1 !! s = Some (SetAction (CList (l0 ++ pre)) false)
    /\ run (S (S n)) start s [] w1 = Ret VNone w2
    /\ trace w2 = trace w1 ++ EStart s :: map EStart (l0 ++ pre)
    /\ heap w2 !! s = Some (SetAction (CList (l0 ++ pre)) true)
    /\ add_actions (S (S n)) s post w2 = Ret tt w3
    /\ trace w3 = trace w2 ++ map EStart post
    /\ heap w3 !! s = Some (SetAction (CList (l0 ++ pre ++ post)) true)
    /\ (NoDup (l0 ++ pre ++ post) ->
        forall c, c ∈ l0 ++ pre ++ post ->
          starts_of c (trace w3) = starts_of c (trace w) + 1)
    /\ run (S (S n)) update s [VInt dt] w3 = Ret VNone w4
    /\ (forall c, starts_of c (trace w4) = starts_of c (trace w3))
    /\ (forall j a,
          run (S j) add_action s [VRef a] w4 = Raise AttributeError w4).
Proof.
  intros Hs Hl Hn.
  assert (Hall : leaves w (l0 ++ pre ++ post)) by done.
  assert (Hsall : s ∉ l0 ++ pre ++ post) by eauto using leaves_not_in_set.
  rewrite app_assoc in Hl. apply leaves_app in Hl as [Hheld Hpost].
  assert (Hsh : s ∉ l0 ++ pre) by eauto using leaves_not_in_set.
  assert (Hsp : s ∉ post) by eauto using leaves_not_in_set.
  assert (Hn' : length (l0 ++ pre) <= n).
  { rewrite app_assoc, length_app in Hn. lia. }
  set (w1 := put s (SetAction (CList (l0 ++ pre)) false) w).
  assert (Hs1 : heap w1 !! s = Some (SetAction (CList (l0 ++ pre)) false))
    by (subst w1; by norm).
  assert (Hheld1 : leaves w1 (l0 ++ pre))
    by (subst w1; by apply leaves_put_other).
  assert (Hall1 : leaves w1 (l0 ++ pre ++ post))
    by (subst w1; by apply leaves_put_other).
  set (w2 := put s (SetAction (CList (l0 ++ pre)) true)
               (start_all (l0 ++ pre) (emit (EStart s) w1))).
  assert (Hlen2 : s < length (heap (start_all (l0 ++ pre) (emit (EStart s) w1)))).
  { eapply lookup_lt_Some. rewrite start_all_other by done. exact Hs1. }
  assert (Hs2 : heap w2 !! s = Some (SetAction (CList (l0 ++ pre)) true)).
  { subst w2. by apply heap_put_eq. }
  assert (Htr2 : trace w2 = trace w1 ++ EStart s :: map EStart (l0 ++ pre)).
  { subst w2. cbn. rewrite start_all_trace by (by apply leaves_emit).
    cbn. by rewrite <- app_assoc. }
  assert (Hall2 : leaves w2 (l0 ++ pre ++ post)).
  { subst w2. apply leaves_put_other; [done|].
    apply start_all_leaves; by apply leaves_emit. }
  assert (Hpost2 : leaves w2 post).
  { rewrite app_assoc in Hall2. by apply leaves_app in Hall2 as [_ ?]. }
  destruct (add_started_all_leaves n w2 s (l0 ++ pre) post Hs2 Hpost2)
    as (w3 & Hrun3 & Htr3 & Hs3 & Hkeep).
  assert (Hs3' : heap w3 !! s = Some (SetAction (CList (l0 ++ pre ++ post)) true))
    by (by rewrite Hs3, <- app_assoc).
  assert (Hall3 : leaves w3 (l0 ++ pre ++ post)) by (by apply Hkeep).
  pose proof (set_update_leaves n w3 s (l0 ++ pre ++ post) true dt Hs3' Hall3 Hn)
    as Hrun4.
  destruct (set_update_leaves_filter _ _ _ _ _ _ _ _ Hs3' Hrun4) as (c' & st' & Hs4).
  eexists w1, w2, w3, _. split_and!; try done.
  - by apply add_pending_all.
  - exact (set_start_leaves n w1 s (l0 ++ pre) false Hs1 Hheld1 Hn').
  - intros Hnd c Hc.
    assert (Hcs : c <> s) by (rewrite app_assoc in Hc; set_solver).
    rewrite Htr3, Htr2. change (trace w1) with (trace w).
    rewrite <- (app_assoc (trace w)), <- app_comm_cons, <- map_app, <- app_assoc.
    rewrite starts_of_app, starts_of_cons.
    rewrite (starts_of_map_once c) by done.
    destruct (decide (EStart s = EStart c)) as [[= ->]|_]; [done|].
    lia.
  - intros c. rewrite sweep_starts. unfold put, emit. cbn [trace].
    rewrite starts_of_app, starts_of_cons.
    destruct (decide _) as [Hd|_]; [discriminate Hd|]. unfold starts_of. cbn. lia.
  - intros j a. by eapply set_add_action_filter.
Qed.

(** A composite is handed one action and started; after one [update] a
    second action is refused and never started. *)
Lemma set_add_action_after_update_witness :
  let w := {| heap := [SetAction (CList []) false; Action; Action];
              trace := [] |} in
  exists w1 w2 w3 w4,
    add_actions 3 0 [1] w = Ret tt w1
    /\ trace w1 = trace w
    /\ heap w1 !! 0 = Some (SetAction (CList [1]) false)
    /\ run 3 start 0 [] w1 = Ret VNone w2
    /\ trace w2 = trace w1 ++ EStart 0 :: map EStart [1]
    /\ heap w2 !! 0 = Some (SetAction (CList [1]) true)
    /\ add_actions 3 0 [] w2 = Ret tt w3
    /\ trace w3 = trace w2 ++ map EStart []
    /\ heap w3 !! 0 = Some (SetAction (CList [1]) true)
    /\ (NoDup [1] ->
        forall c, c ∈ [1] -> starts_of c (trace w3) = starts_of c (trace w) + 1)
    /\ run 3 update 0 [VInt 1] w3 = Ret VNone w4
    /\ (forall c, starts_of c (trace w4) = starts_of c (trace w3))
    /\ (forall j a,
          run (S j) add_action 0 [VRef a] w4 = Raise AttributeError w4).
Proof.
  intros w.
  apply (set_add_action_after_update 1 w 0 [] [1] [] 1).
  - reflexivity.
  - intros c Hc.
    apply elem_of_cons in Hc as [->|Hc]; [by eexists|].
    by apply elem_of_nil in Hc.
  - cbn. lia.
Defined.

(** ** Worked runs *)

(** The state of C3 and C6 built by a host from scratch: a parallel
    composite is handed a running action and a finished one, started,
    updated, and asked whether it is over. *)
Example set_host_run :
  (s <- new_set_action;;
   r <- new_custom_action running;;
   a <- new_action;;
   run 4 add_action s [VRef r];;;
   run 4 add_action s [VRef a];;;
   run 4 start s [];;;
   run 4 update s [VInt 1];;;
   run 4 is_over s []) empty_world
  = Raise TypeError
      {| heap := [SetAction (CFilter (CList [])) true; CustomAction running; Action];
         trace := [EStart 0; EStart 1; EStart 2;
                   EUpdate 0 1; EUpdate 1 1; EEnd 2] |}.
Proof. reflexivity. Qed.

(** A child whose [start()] adds another child while [set_action.start()]
    is iterating: the flag is still unset, so [add_action] does not start
    the newcomer, and the loop, which runs over the growing list, starts it
    once. *)
Example set_start_grows :
  run 4 start 0 []
    {| heap := [SetAction (CList [1]) false; CallbackAction [AddAction 0 2]; Action];
       trace := [] |}
  = Ret VNone
      {| heap := [SetAction (CList [1; 2]) true; CallbackAction [AddAction 0 2]; Action];
         trace := [EStart 0; EStart 1; EStart 2] |}.
Proof. reflexivity. Qed.

(** A sequential composite of actions that are all over at once drains in
    one [update]. *)
Example sequence_drains :
  (run 4 update 0 [VInt 1];;; run 4 is_over 0 [])
    {| heap := [SequenceAction [1; 2; 3]; Action; CallbackAction []; Action];
       trace := [] |}
  = Ret (VBool true)
      {| heap := [SequenceAction []; Action; CallbackAction []; Action];
         trace := [EUpdate 0 1; EPopleft 0 1; EEnd 1; EStart 2;
                   EPopleft 0 2; EEnd 2; EStart 3; EPopleft 0 3; EEnd 3] |}.
Proof. reflexivity. Qed.

(** The three-children scenario from the first frame on: after the second
    [update(1)] the third child stands at time 1. *)
Example sequence_abc_from_start :
  (run 4 update 0 [VInt 1];;; run 4 update 0 [VInt 1])
    {| heap := [SequenceAction [1; 2; 3];
                WaitAction 0 2; CallbackAction []; WaitAction 0 3];
       trace := [] |}
  = Ret VNone
      {| heap := [SequenceAction [3];
                  WaitAction 2 2; CallbackAction []; WaitAction 1 3];
         trace := [EUpdate 0 1; EUpdate 1 1;
                   EUpdate 0 1; EUpdate 1 1; EPopleft 0 1; EEnd 1;
                   EStart 2; EPopleft 0 2; EEnd 2; EStart 3; EUpdate 3 1] |}.
Proof. reflexivity. Qed.

(** * Part IV: further properties of the code *)

(** X1: in one [update(dt)] of a sequence of leaf actions, the calls other
    than child updates follow the life cycle of the children the call
    retires: each retired child [d] is popped from the deque, then ended,
    then the next child in line (if there is one) is started, in queue
    order; the children retired are a prefix [done] of the queue, the rest
    stays in the deque. *)
Theorem sequence_update_lifecycle n w s f r dt :
  heap w !! s = Some (SequenceAction (f :: r)) ->
  leaves w (f :: r) ->
  length r <= n ->
  exists w' done rest tr,
    run (S (S n)) update s [VInt dt] w = Ret VNone w'
    /\ f :: r = done ++ rest
    /\ heap w' !! s = Some (SequenceAction rest)
    /\ trace w' = trace w ++ EUpdate s dt :: tr
    /\ filter (fun e => is_update e = false) tr = lifecycle s done rest.
Proof.
  intros Hs Hlv Hn.
  destruct (drain_spec dt s r f (emit (EUpdate s dt) w) Hs (leaves_emit _ _ _ Hlv))
    as (done & rest & tr & Hsplit & Hs' & Htr & Hlife & _).
  eexists _, done, rest, tr. split_and!; try done.
  - by apply sequence_update_drain.
  - rewrite Htr. cbn. by rewrite <- app_assoc.
Qed.

Lemma sequence_update_lifecycle_witness :
  exists w' done rest tr,
    run 4 update 0 [VInt 1] abc_world = Ret VNone w'
    /\ [1; 2; 3] = done ++ rest
    /\ heap w' !! 0 = Some (SequenceAction rest)
    /\ trace w' = trace abc_world ++ EUpdate 0 1 :: tr
    /\ filter (fun e => is_update e = false) tr = lifecycle 0 done rest.
Proof.
  apply (sequence_update_lifecycle 2 abc_world 0 1 [2; 3] 1).
  - reflexivity.
  - exact abc_leaves.
  - cbn. lia.
Defined.

(** X2: one [update(dt)] of a sequence of leaf actions touches only the
    composite, the children it retires and the new front: every other
    object of the store is as before, and when no child is held twice the
    children behind the new front are untouched (not started, not
    updated). *)
Theorem sequence_update_frame n w s f r dt :
  heap w !! s = Some (SequenceAction (f :: r)) ->
  leaves w (f :: r) ->
  length r <= n ->
  exists w' done rest,
    run (S (S n)) update s [VInt dt] w = Ret VNone w'
    /\ f :: r = done ++ rest
    /\ heap w' !! s = Some (SequenceAction rest)
    /\ (forall l, l <> s -> l ∉ done ++ take 1 rest -> heap w' !! l = heap w !! l)
    /\ (NoDup (f :: r) ->
        forall c, c ∈ drop 1 rest -> heap w' !! c = heap w !! c).
Proof.
  intros Hs Hlv Hn.
  destruct (drain_spec dt s r f (emit (EUpdate s dt) w) Hs (leaves_emit _ _ _ Hlv))
    as (done & rest & tr & Hsplit & Hs' & Htr & Hlife & Hframe).
  eexists _, done, rest. split_and!; try done.
  - by apply sequence_update_drain.
  - intros Hnd c Hc.
    assert (Hcr : c ∈ rest) by (destruct rest; cbn in Hc; set_solver).
    assert (Hcq : c ∈ f :: r) by (rewrite Hsplit; set_solver).
    destruct (Hlv c Hcq) as (oc & Hoc & Hlc).
    assert (Hcs : c <> s) by eauto using leaf_not_composite.
    rewrite Hsplit in Hnd. apply NoDup_app in Hnd as (_ & Hdis & Hndr).
    apply Hframe; [done|].
    intros [Hin|Hin]%elem_of_app.
    + by apply (Hdis c).
    + destruct rest as [|x rest']; [cbn in Hin; set_solver|]. cbn in Hin, Hc.
      apply NoDup_cons in Hndr as [Hx _]. set_solver.
Qed.

Lemma sequence_update_frame_witness :
  exists w' done rest,
    run 4 update 0 [VInt 1] abc_world = Ret VNone w'
    /\ [1; 2; 3] = done ++ rest
    /\ heap w' !! 0 = Some (SequenceAction rest)
    /\ (forall l, l <> 0 -> l ∉ done ++ take 1 rest ->
          heap w' !! l = heap abc_world !! l)
    /\ (NoDup [1; 2; 3] ->
        forall c, c ∈ drop 1 rest -> heap w' !! c = heap abc_world !! c).
Proof.
  apply (sequence_update_frame 2 abc_world 0 1 [2; 3] 1).
  - reflexivity.
  - exact abc_leaves.
  - cbn. lia.
Defined.

Lemma on_start_idem o : on_start (on_start o) = on_start o.
Proof. by destruct o. Qed.





(** X4: on a sequence that already holds a child, [add_action] only
    appends: a run of [add_action] calls leaves the old queue in front, the
    new children behind it in call order, calls no method of any child, and
    [is_over()] answers [False]. *)
Theorem sequence_add_actions_order n m w s x q l :
  heap w !! s = Some (SequenceAction (x :: q)) ->
  add_actions (S n) s l w = Ret tt (put s (SequenceAction (x :: q ++ l)) w)
  /\ trace (put s (SequenceAction (x :: q ++ l)) w) = trace w
  /\ run (S m) is_over s [] (put s (SequenceAction (x :: q ++ l)) w)
     = Ret (VBool false) (put s (SequenceAction (x :: q ++ l)) w).
Proof.
  intros Hs. split_and!.
  - revert q w Hs. induction l as [|a l IH]; intros q w Hs; cbn.
    + rewrite app_nil_r. by rewrite put_same.
    + unfold bind. rewrite (sequence_add_action_later _ _ _ _ _ _ Hs).
      rewrite (IH (q ++ [a])) by (by norm).
      by rewrite put_put, <- app_assoc.
  - done.
  - by exec.
Qed.

Lemma sequence_add_actions_order_witness :
  let w := {| heap := [SequenceAction [7]; Action]; trace := [] |} in
  add_actions 1 0 [1; 1] w = Ret tt (put 0 (SequenceAction [7; 1; 1]) w)
  /\ trace (put 0 (SequenceAction [7; 1; 1]) w) = trace w
  /\ run 1 is_over 0 [] (put 0 (SequenceAction [7; 1; 1]) w)
     = Ret (VBool false) (put 0 (SequenceAction [7; 1; 1]) w).
Proof.
  intros w. exact (sequence_add_actions_order 0 0 w 0 7 [] [1; 1] eq_refl).
Defined.

Lemma start_all_state l : forall w c o,
  leaves w l -> c ∈ l -> heap w !! c = Some o ->
  heap (start_all l w) !! c = Some (on_start o).
Proof.
  induction l as [|a l IH]; intros w c o Hl Hc Ho; [by apply elem_of_nil in Hc|].
  apply leaves_cons in Hl as [(oa & Hoa & Hleaf) Hl]. cbn. rewrite Hoa.
  assert (Hl2 : leaves (activated a oa w) l) by (by apply leaves_activated).
  destruct (decide (c = a)) as [->|Hne].
  - rewrite Hoa in Ho. injection Ho as <-.
    assert (Ha2 : heap (activated a oa w) !! a = Some (on_start oa)).
    { unfold activated. by norm. }
    destruct (decide (a ∈ l)) as [Hin|Hnin].
    + rewrite (IH _ a (on_start oa) Hl2 Hin Ha2). by rewrite on_start_idem.
    + by rewrite start_all_other.
  - apply IH; [done|set_solver|]. unfold activated. by norm.
Qed.

(** X5: [set_action.start()] does not look at the [started] flag: called
    on a composite that is already started it starts every held child
    again, in order (a timer is set back to 0), and leaves the list and the
    flag as they were. *)
Theorem set_start_again n w s l :
  heap w !! s = Some (SetAction (CList l) true) ->
  leaves w l ->
  length l <= n ->
  exists w',
    run (S (S n)) start s [] w = Ret VNone w'
    /\ trace w' = trace w ++ EStart s :: map EStart l
    /\ heap w' !! s = Some (SetAction (CList l) true)
    /\ forall c o, c ∈ l -> heap w !! c = Some o ->
         heap w' !! c = Some (on_start o).
Proof.
  intros Hs Hl Hn.
  assert (Hsl : s ∉ l) by eauto using leaves_not_in_set.
  eexists. split_and!.
  - exact (set_start_leaves n w s l true Hs Hl Hn).
  - cbn. rewrite start_all_trace by (by apply leaves_emit).
    cbn. by rewrite <- app_assoc.
  - apply heap_put_eq. eapply lookup_lt_Some. rewrite start_all_other by done.
    exact Hs.
  - intros c o Hc Ho.
    assert (c <> s) by set_solver.
    rewrite heap_put_ne by done.
    by apply start_all_state; [apply leaves_emit| |].
Qed.

Lemma set_start_again_witness :
  let w := {| heap := [SetAction (CList [1; 2]) true; WaitAction 3 5; Action];
              trace := [] |} in
  exists w',
    run 4 start 0 [] w = Ret VNone w'
    /\ trace w' = trace w ++ EStart 0 :: map EStart [1; 2]
    /\ heap w' !! 0 = Some (SetAction (CList [1; 2]) true)
    /\ forall c o, c ∈ [1; 2] -> heap w !! c = Some o ->
         heap w' !! c = Some (on_start o).
Proof.
  intros w. apply (set_start_again 2 w 0 [1; 2]).
  - reflexivity.
  - intros c Hc.
    apply elem_of_cons in Hc as [->|Hc]; [by eexists|].
    apply elem_of_cons in Hc as [->|Hc]; [by eexists|].
    by apply elem_of_nil in Hc.
  - cbn. lia.
Defined.

Lemma sweep_other dt s st l : forall w l',
  l' <> s -> l' ∉ l ->
  heap (sweep dt s st l w) !! l' = heap w !! l'.
Proof.
  induction l as [|c l IH]; intros w l' Hs Hn; cbn; [done|].
  destruct (heap w !! c) as [o|] eqn:Ho; [|done].
  assert (Hcs : l' <> c) by set_solver.
  destruct (over o); (rewrite IH; [by norm|done|set_solver]).
Qed.

Lemma sweep_state dt s st l : forall w c o,
  NoDup l -> s ∉ l -> leaves w l ->
  c ∈ l -> heap w !! c = Some o ->
  heap (sweep dt s st l w) !! c = Some (if over o then o else on_update dt o).
Proof.
  induction l as [|a l IH]; intros w c o Hnd Hs Hl Hc Ho; [by apply elem_of_nil in Hc|].
  apply NoDup_cons in Hnd as [Ha Hnd].
  apply leaves_cons in Hl as [(oa & Hoa & Hleaf) Hl].
  assert (Has : a <> s) by set_solver.
  assert (Hsl : s ∉ l) by set_solver.
  cbn. rewrite Hoa.
  destruct (decide (c = a)) as [->|Hne].
  - rewrite Hoa in Ho. injection Ho as <-.
    destruct (over oa); rewrite sweep_other by done; by norm.
  - assert (Hcl : c ∈ l) by set_solver.
    assert (Hcs : c <> s) by set_solver.
    destruct (over oa).
    + apply IH; try done; [|by norm].
      by apply leaves_emit, (leaves_put_other w).
    + apply IH; try done; [|by norm].
      apply leaves_put_leaf; [by apply leaf_on_update|].
      by apply leaves_emit, (leaves_put_other w).
Qed.

(** X6: what one [set_action.update(dt)] does to the state of the
    children (leaves, none held twice): a child that is not over moves by
    one [update(dt)], a child that is over keeps its state, and no object
    outside the composite and its children changes. *)
Theorem set_update_states n w s l st dt :
  heap w !! s = Some (SetAction (CList l) st) ->
  NoDup l ->
  leaves w l ->
  length l <= n ->
  exists w',
    run (S (S n)) update s [VInt dt] w = Ret VNone w'
    /\ (forall c o, c ∈ l -> heap w !! c = Some o ->
          heap w' !! c = Some (if over o then o else on_update dt o))
    /\ (forall l', l' <> s -> l' ∉ l -> heap w' !! l' = heap w !! l').
Proof.
  intros Hs Hnd Hl Hn.
  assert (Hsl : s ∉ l) by eauto using leaves_not_in_set.
  eexists. split_and!.
  - by apply set_update_leaves.
  - intros c o Hc Ho.
    assert (Hcs : c <> s) by set_solver.
    apply sweep_state; try done; [|by norm].
    by apply (leaves_put_other (emit (EUpdate s dt) w)), leaves_emit.
  - intros l' Hl' Hn'. rewrite sweep_other by done. by norm.
Qed.

Lemma set_update_states_witness :
  let w := {| heap := [SetAction (CList [1; 2]) true; WaitAction 0 5; WaitAction 5 5];
              trace := [] |} in
  exists w',
    run 4 update 0 [VInt 2] w = Ret VNone w'
    /\ (forall c o, c ∈ [1; 2] -> heap w !! c = Some o ->
          heap w' !! c = Some (if over o then o else on_update 2 o))
    /\ (forall l', l' <> 0 -> l' ∉ [1; 2] -> heap w' !! l' = heap w !! l').
Proof.
  intros w. apply (set_update_states 2 w 0 [1; 2] true 2).
  - reflexivity.
  - by apply (bool_decide_unpack (NoDup [1; 2])).
  - intros c Hc.
    apply elem_of_cons in Hc as [->|Hc]; [by eexists|].
    apply elem_of_cons in Hc as [->|Hc]; [by eexists|].
    by apply elem_of_nil in Hc.
  - cbn. lia.
Defined.

Lemma later_extends w w' : later w w' -> extends w w'.
Proof.
  induction 1 as [|w1 w2 n m self args v _ IH Hrun|w1 w2 n m self args e _ IH Hrun].
  - apply extends_refl.
  - eapply extends_trans; [exact IH|].
    pose proof (stable_run n m self args w1) as H. unfold stable_on in H.
    by rewrite Hrun in H.
  - eapply extends_trans; [exact IH|].
    pose proof (stable_run n m self args w1) as H. unfold stable_on in H.
    by rewrite Hrun in H.
Qed.

(** X7: [set_action.update] is a one-way door.  Once a call of [update]
    has returned, [self.actions] is a filter object for good: whatever
    methods of whatever objects are called afterwards, [add_action] on the
    composite raises [AttributeError] and [is_over()] raises [TypeError],
    each without changing anything. *)
Theorem set_closed_after_update n w s c st dt v w1 w2 :
  heap w !! s = Some (SetAction c st) ->
  run n update s [VInt dt] w = Ret v w1 ->
  later w1 w2 ->
  forall j a,
    run (S j) add_action s [VRef a] w2 = Raise AttributeError w2
    /\ run (S j) is_over s [] w2 = Raise TypeError w2.
Proof.
  intros Hs Hrun Hlater j a.
  destruct (set_update_leaves_filter _ _ _ _ _ _ _ _ Hs Hrun) as (c1 & st1 & Hs1).
  destruct (Forall2_lookup_l _ _ _ _ _ (later_extends _ _ Hlater) Hs1)
    as (o2 & Hs2 & Hcls & Hfil).
  specialize (Hfil eq_refl).
  destruct o2 as [| | | |[l2|c2] st2| |]; try discriminate Hfil.
  split; [by eapply set_add_action_filter|by eapply set_is_over_filter].
Qed.

Lemma set_closed_after_update_witness :
  let w := {| heap := [SetAction (CList [1]) true; Action; Action]; trace := [] |} in
  let w1 := {| heap := [SetAction (CFilter (CList [])) true; Action; Action];
               trace := [EUpdate 0 1; EEnd 1] |} in
  let w2 := {| heap := [SetAction (CFilter (CList [])) true; Action; Action];
               trace := [EUpdate 0 1; EEnd 1; EStart 0] |} in
  run 3 update 0 [VInt 1] w = Ret VNone w1
  /\ run 3 start 0 [] w1 = Ret VNone w2
  /\ run 1 add_action 0 [VRef 2] w2 = Raise AttributeError w2
  /\ run 1 is_over 0 [] w2 = Raise TypeError w2.
Proof.
  intros w w1 w2.
  split; [reflexivity|]. split; [reflexivity|].
  apply (set_closed_after_update 3 w 0 (CList [1]) true 1 VNone w1 w2 eq_refl eq_refl).
  exact (later_return w1 w1 w2 3 start 0 [] VNone (later_now w1) eq_refl).
Defined.


(** X8: [action_list] does not derive from [action] and defines only
    [update] and [add_action]: [start], [end], [is_over] and [result] raise
    [AttributeError] on it.  So a sequence whose front is an [action_list]
    fails in [update] at [front.is_over()], and a started [set_action]
    handed one keeps it in its list and fails at [action.start()]. *)
Theorem action_list_is_no_action n w al q :
  heap w !! al = Some (ActionList q) ->
  run (S n) start al [] w = Raise AttributeError w
  /\ run (S n) end_ al [] w = Raise AttributeError w
  /\ run (S n) is_over al [] w = Raise AttributeError w
  /\ run (S n) result_ al [] w = Raise AttributeError w
  /\ (forall s r dt,
        heap w !! s = Some (SequenceAction (al :: r)) ->
        run (S (S n)) update s [VInt dt] w
        = Raise AttributeError (emit (EUpdate s dt) w))
  /\ (forall s l,
        heap w !! s = Some (SetAction (CList l) true) ->
        run (S (S n)) add_action s [VRef al] w
        = Raise AttributeError (put s (SetAction (CList (l ++ [al])) true) w)).
Proof.
  intros Hal. split_and!; try (by exec).
  - intros s r dt Hs.
    assert (al <> s) by (intros ->; congruence). by exec.
  - intros s l Hs.
    assert (al <> s) by (intros ->; congruence). by exec.
Qed.

Lemma action_list_is_no_action_witness :
  let w := {| heap := [SequenceAction []; ActionList 0; SequenceAction [1]];
              trace := [] |} in
  run 1 is_over 1 [] w = Raise AttributeError w
  /\ run 2 update 2 [VInt 1] w = Raise AttributeError (emit (EUpdate 2 1) w).
Proof.
  intros w.
  destruct (action_list_is_no_action 0 w 1 0 eq_refl) as (_ & _ & H1 & _ & H2 & _).
  split; [exact H1|exact (H2 2 [] 1%Z eq_refl)].
Defined.

Lemma updates_wait n dts : forall w c c0 e,
  heap w !! c = Some (WaitAction c0 e) ->
  exists w',
    updates (S n) c dts w = Ret tt w'
    /\ heap w' !! c = Some (WaitAction (c0 + foldr Z.add 0%Z dts) e)
    /\ trace w' = trace w ++ map (EUpdate c) dts.
Proof.
  induction dts as [|dt dts IH]; intros w c c0 e Hc; cbn.
  - exists w. by rewrite Z.add_0_r, app_nil_r.
  - unfold bind. rewrite (run_update_leaf _ _ _ _ dt Hc eq_refl).
    destruct (IH (put c (on_update dt (WaitAction c0 e)) (emit (EUpdate c dt) w))
                c (c0 + dt)%Z e) as (w' & Hrun & Hc' & Htr).
    { by norm. }
    exists w'. split_and!; [done| |].
    + rewrite Hc'. do 2 f_equal. lia.
    + rewrite Htr. cbn. by rewrite <- app_assoc.
Qed.

(** X9: the timer of a [wait_action] on integer times.  With an integer
    [end_time], after [start()] and one [update(dt)] for each [dt] of a
    list [dts] of integers, [current_time] is the exact sum of [dts],
    whatever it was before [start()], and [is_over()] answers whether
    [end_time <= sum dts]. *)
Theorem wait_action_timer n w c c0 e dts :
  heap w !! c = Some (WaitAction c0 e) ->
  exists w',
    (run (S n) start c [];;; updates (S n) c dts;;; run (S n) is_over c []) w
    = Ret (VBool (e <=? foldr Z.add 0%Z dts)%Z) w'
    /\ heap w' !! c = Some (WaitAction (foldr Z.add 0%Z dts) e)
    /\ trace w' = trace w ++ EStart c :: map (EUpdate c) dts.
Proof.
  intros Hc. unfold bind at 1.
  rewrite (run_start_leaf _ _ _ _ Hc eq_refl).
  destruct (updates_wait n dts (put c (on_start (WaitAction c0 e)) (emit (EStart c) w))
              c 0%Z e) as (w' & Hrun & Hc' & Htr).
  { by norm. }
  exists w'. unfold bind. rewrite Hrun.
  rewrite (run_is_over_leaf _ _ _ _ Hc' eq_refl). split_and!.
  - done.
  - done.
  - rewrite Htr. cbn. by rewrite <- app_assoc.
Qed.

Lemma wait_action_timer_witness :
  let w := {| heap := [WaitAction 9 3]; trace := [] |} in
  exists w',
    (run 1 start 0 [];;; updates 1 0 [1; 1]%Z;;; run 1 is_over 0 []) w
    = Ret (VBool false) w'
    /\ heap w' !! 0 = Some (WaitAction 2 3)
    /\ trace w' = [EStart 0; EUpdate 0 1; EUpdate 0 1].
Proof. intros w. exact (wait_action_timer 0 w 0 9 3 [1; 1]%Z eq_refl). Defined.




(** X11: no class of the package overrides [result] or [end]: on an
    [action], a [wait_action], a [callback_action], a [sequence_action] and
    a [set_action], [result()] returns [None] and [end()] returns without
    changing the object (ending a composite ends none of its children). *)
Theorem result_and_end_inherited n w l o :
  heap w !! l = Some o ->
  package_action o = true ->
  run (S n) result_ l [] w = Ret VNone w
  /\ run (S n) end_ l [] w = Ret VNone (emit (EEnd l) w).
Proof. intros Hl Hp. destruct o; try discriminate Hp; split; by exec. Qed.

Lemma result_and_end_inherited_witness :
  let w := {| heap := [SequenceAction [1]; WaitAction 5 5]; trace := [] |} in
  run 1 result_ 0 [] w = Ret VNone w
  /\ run 1 end_ 0 [] w = Ret VNone (emit (EEnd 0) w).
Proof. intros w. exact (result_and_end_inherited 0 w 0 _ eq_refl eq_refl). Defined.


(** A callback that hands the children [zs] to the composite [s] is the
    host loop [add_actions], run inside the callback's [start()]. *)
Lemma run_script_adds n s zs :
  run_script (run n) (map (AddAction s) zs) = add_actions n s zs.
Proof. induction zs as [|z zs IH]; cbn; [done|]. by rewrite IH. Qed.

Lemma run_start_callback n cb s zs w :
  heap w !! cb = Some (CallbackAction (map (AddAction s) zs)) ->
  run (S n) start cb [] w
  = (add_actions n s zs;;; ret VNone) (emit (EStart cb) w).
Proof.
  intros Hcb. rewrite run_S. norm. fold (emit (EStart cb) w).
  by rewrite run_script_adds.
Qed.

(** The list iterator of [start()] over a stretch [mid] of leaves. *)
Lemma for_list_start_part n k w s pre mid suf st :
  heap w !! s = Some (SetAction (CList (pre ++ mid ++ suf)) st) ->
  leaves w mid ->
  for_list (length mid + k) s (length pre) (fun a => run (S n) start a []) w
  = for_list k s (length pre + length mid) (fun a => run (S n) start a [])
      (start_all mid w).
Proof.
  revert w pre. induction mid as [|a mid IH]; intros w pre Hs Hl.
  - cbn. by rewrite Nat.add_0_r.
  - cbn [length Nat.add]. rewrite for_list_S. norm.
    rewrite lookup_app_r by lia. rewrite Nat.sub_diag. cbn.
    apply leaves_cons in Hl as [(o & Ho & Hleaf) Hl].
    assert (Has : a <> s) by eauto using leaf_not_set.
    rewrite (run_start_leaf _ _ _ _ Ho Hleaf). rewrite Ho.
    replace (S (length pre)) with (length (pre ++ [a]))
      by (rewrite length_app; cbn; lia).
    replace (length pre + S (length mid)) with (length (pre ++ [a]) + length mid)
      by (rewrite length_app; cbn; lia).
    apply IH.
    + unfold activated. norm. by rewrite <- app_assoc.
    + by apply leaves_activated.
Qed.

Lemma start_all_fixed l : forall w c o,
  leaves w l -> heap w !! c = Some o -> on_start o = o ->
  heap (start_all l w) !! c = Some o.
Proof.
  induction l as [|a l IH]; intros w c o Hl Ho Hfix; [done|].
  apply leaves_cons in Hl as [(oa & Hoa & Hleaf) Hl]. cbn. rewrite Hoa.
  apply IH; [by apply leaves_activated| |done].
  unfold activated. destruct (decide (a = c)) as [->|Hne].
  - rewrite Hoa in Ho. injection Ho as ->. rewrite Hfix. by norm.
  - by norm.
Qed.

(** X12: a [set_action] may grow while [start()] runs.  When the callback
    of a held [callback_action] hands the children [zs] to the composite,
    they are appended without being started (the flag is still [False]),
    and the loop of [start()], whose iterator is an index into the list,
    reaches them: every child, old and new, is started once, in list
    order. *)
Theorem set_start_grows_while_starting n w s cb l1 l2 zs :
  heap w !! s = Some (SetAction (CList (l1 ++ cb :: l2)) false) ->
  heap w !! cb = Some (CallbackAction (map (AddAction s) zs)) ->
  leaves w (l1 ++ l2 ++ zs) ->
  length (l1 ++ cb :: l2 ++ zs) <= n ->
  exists w',
    run (S (S (S n))) start s [] w = Ret VNone w'
    /\ heap w' !! s = Some (SetAction (CList (l1 ++ cb :: l2 ++ zs)) true)
    /\ trace w' = trace w ++ EStart s :: map EStart (l1 ++ cb :: l2 ++ zs).
Proof.
  intros Hs Hcb Hl Hn.
  apply leaves_app in Hl as [Hl1 Hl2].
  assert (Hs1 : s ∉ l1) by eauto using leaves_not_in_set.
  assert (Hs2 : s ∉ l2 ++ zs) by eauto using leaves_not_in_set.
  assert (Hcs : cb <> s) by (intros ->; congruence).
  rewrite length_app in Hn. cbn in Hn.
  set (w1 := start_all l1 (emit (EStart s) w)).
  assert (Hs1' : heap w1 !! s = Some (SetAction (CList (l1 ++ cb :: l2)) false)).
  { unfold w1. by rewrite start_all_other. }
  assert (Hcb1 : heap w1 !! cb = Some (CallbackAction (map (AddAction s) zs))).
  { unfold w1. by apply start_all_fixed. }
  assert (Htr1 : trace w1 = trace w ++ EStart s :: map EStart l1).
  { unfold w1. rewrite start_all_trace by done. cbn. by rewrite <- app_assoc. }
  assert (Hl2' : leaves w1 (l2 ++ zs)) by (by apply start_all_leaves).
  set (w2 := put s (SetAction (CList (l1 ++ cb :: l2 ++ zs)) false)
               (emit (EStart cb) w1)).
  assert (Hs2' : heap w2 !! s
                 = Some (SetAction (CList ((l1 ++ [cb]) ++ l2 ++ zs)) false)).
  { unfold w2. norm. by rewrite <- app_assoc. }
  assert (Hl3 : leaves w2 (l2 ++ zs)).
  { unfold w2. apply leaves_put_other; [done|]. by apply leaves_emit. }
  set (w3 := start_all (l2 ++ zs) w2).
  assert (Hs3 : heap w3 !! s = Some (SetAction (CList (l1 ++ cb :: l2 ++ zs)) false)).
  { unfold w3. rewrite start_all_other by done. unfold w2. by norm. }
  assert (Htr3 : trace w3
                 = trace w ++ EStart s :: map EStart (l1 ++ cb :: l2 ++ zs)).
  { unfold w3. rewrite start_all_trace by done. unfold w2. cbn. rewrite Htr1.
    rewrite !map_app. cbn. rewrite !map_app. by rewrite <- !app_assoc. }
  exists (put s (SetAction (CList (l1 ++ cb :: l2 ++ zs)) true) w3).
  split_and!; [|by norm|done].
  pose proof (for_list_start_part (S n) (S (S n) - length l1) (emit (EStart s) w)
                s [] l1 (cb :: l2) false Hs Hl1) as E1.
  replace (length l1 + (S (S n) - length l1)) with (S (S n)) in E1 by lia.
  cbn [length Nat.add] in E1. fold w1 in E1.
  pose proof (for_list_start (S n) (S n - length l1) w2 s (l1 ++ [cb]) (l2 ++ zs)
                false Hs2' Hl3) as E2.
  rewrite (length_app l1 [cb]) in E2. cbn [length] in E2.
  replace (length l1 + 1) with (S (length l1)) in E2 by lia.
  fold w3 in E2.
  assert (E3 : run (S (S n)) start cb [] w1 = Ret VNone w2).
  { rewrite (run_start_callback _ _ s zs _ Hcb1). unfold bind.
    rewrite (add_pending_all n _ s (l1 ++ cb :: l2) zs) by done.
    unfold w2. cbn. do 3 f_equal. by rewrite <- app_assoc. }
  clearbody w1 w2 w3.
  rewrite run_S. norm. unfold set_action_start, for_each. norm.
  fold (emit (EStart s) w). rewrite E1.
  replace (S (S n) - length l1) with (S (S n - length l1)) by lia.
  rewrite for_list_S. norm.
  rewrite lookup_app_r by lia. rewrite Nat.sub_diag. cbn.
  rewrite E3. rewrite E2 by lia. by norm.
Qed.

Lemma set_start_grows_while_starting_witness :
  let w := {| heap := [SetAction (CList [1; 2; 3]) false; Action;
                       CallbackAction [AddAction 0 4]; WaitAction 7 2; Action];
              trace := [] |} in
  exists w',
    run 8 start 0 [] w = Ret VNone w'
    /\ heap w' !! 0 = Some (SetAction (CList [1; 2; 3; 4]) true)
    /\ trace w' = [EStart 0; EStart 1; EStart 2; EStart 3; EStart 4].
Proof.
  intros w.
  apply (set_start_grows_while_starting 5 w 0 2 [1] [3] [4] eq_refl eq_refl).
  - intros c Hc.
    apply elem_of_cons in Hc as [->|Hc]; [by eexists|].
    apply elem_of_cons in Hc as [->|Hc]; [by eexists|].
    apply elem_of_cons in Hc as [->|Hc]; [by eexists|].
    by apply elem_of_nil in Hc.
  - cbn. lia.
Defined.

(** X13: [add_action] on a started [set_action] appends before it starts.
    Handed a [callback_action] whose callback hands the children [zs] to
    the same composite, it leaves the list [l ++ cb :: zs] and starts [cb],
    then each of [zs], once. *)
Theorem set_add_callback_adds n w s cb l zs :
  heap w !! s = Some (SetAction (CList l) true) ->
  heap w !! cb = Some (CallbackAction (map (AddAction s) zs)) ->
  leaves w zs ->
  exists w',
    run (S (S (S (S n)))) add_action s [VRef cb] w = Ret VNone w'
    /\ heap w' !! s = Some (SetAction (CList (l ++ cb :: zs)) true)
    /\ trace w' = trace w ++ EStart cb :: map EStart zs.
Proof.
  intros Hs Hcb Hl.
  assert (Hsz : s ∉ zs) by eauto using leaves_not_in_set.
  assert (Hcs : cb <> s) by (intros ->; congruence).
  set (w1 := emit (EStart cb) (put s (SetAction (CList (l ++ [cb])) true) w)).
  destruct (add_started_all n w1 s (l ++ [cb]) zs) as (w' & Hrun & Htr & Hs').
  { unfold w1. by norm. }
  { unfold w1. apply leaves_emit. by apply leaves_put_other. }
  exists w'. split_and!.
  - rewrite run_S. norm.
    rewrite (run_start_callback _ _ s zs) by (by norm).
    unfold bind. fold (put s (SetAction (CList (l ++ [cb])) true) w). fold w1.
    by rewrite Hrun.
  - rewrite Hs'. by rewrite <- app_assoc.
  - rewrite Htr. unfold w1. cbn. by rewrite <- app_assoc.
Qed.

Lemma set_add_callback_adds_witness :
  let w := {| heap := [SetAction (CList []) true;
                       CallbackAction [AddAction 0 2]; WaitAction 7 2];
              trace := [] |} in
  exists w',
    run 4 add_action 0 [VRef 1] w = Ret VNone w'
    /\ heap w' !! 0 = Some (SetAction (CList [1; 2]) true)
    /\ trace w' = [EStart 1; EStart 2].
Proof.
  intros w.
  apply (set_add_callback_adds 0 w 0 1 [] [2] eq_refl eq_refl).
  intros c Hc.
  apply elem_of_cons in Hc as [->|Hc]; [by eexists|].
  by apply elem_of_nil in Hc.
Defined.




Lemma loop_readds_diverges n dt s k : forall w f r,
  heap w !! s = Some (SequenceAction (f :: r)) ->
  r <> [] ->
  (forall c, c ∈ f :: r -> heap w !! c = Some (CustomAction (readds s c))) ->
  sequence_action_loop (run n) k s f dt w = OutOfFuel.
Proof.
  induction k as [|k IH]; intros w f r Hs Hr Hq; [done|].
  assert (Hf : heap w !! f = Some (CustomAction (readds s f))) by (apply Hq; set_solver).
  assert (Hfs : f <> s) by (intros ->; congruence).
  destruct r as [|f' r]; [done|].
  assert (Hf' : heap w !! f' = Some (CustomAction (readds s f'))) by (apply Hq; set_solver).
  assert (Hfs' : f' <> s) by (intros ->; congruence).
  rewrite sequence_action_loop_S.
  destruct n as [|n]; [done|]. unfold bind at 1. rewrite run_S. norm.
  unfold retire. norm.
  rewrite run_S. norm.
  destruct n as [|n]; [done|]. rewrite run_S. norm.
  replace (length (r ++ [f]) =? 0) with false
    by (symmetry; apply Nat.eqb_neq; rewrite length_app; cbn; lia).
  norm. rewrite run_S. norm.
  apply (IH _ f' (r ++ [f])).
  - by norm.
  - by destruct r.
  - intros c Hc. norm.
    assert (Hcq : c ∈ f :: f' :: r) by set_solver.
    assert (c <> s) by (intros ->; specialize (Hq _ Hcq); congruence).
    norm. by apply Hq.
Qed.

(** X15: the loop of [sequence_action.update] has no bound.  With two or
    more children that are over and whose [end()] hands them back to the
    sequence, every retired child is appended again behind its successor,
    the queue never empties, and [update(dt)] does not return: it runs out
    of every amount of fuel. *)
Theorem sequence_update_never_returns n w s q dt :
  heap w !! s = Some (SequenceAction q) ->
  2 <= length q ->
  (forall c, c ∈ q -> heap w !! c = Some (CustomAction (readds s c))) ->
  run n update s [VInt dt] w = OutOfFuel.
Proof.
  intros Hs Hlen Hq. destruct n as [|n]; [done|].
  destruct q as [|f [|f' r]]; [cbn in Hlen; lia..|].
  rewrite run_S. norm.
  by apply (loop_readds_diverges n dt s n _ f (f' :: r)).
Qed.

Lemma sequence_update_never_returns_witness :
  let w := {| heap := [SequenceAction [1; 2]; CustomAction (readds 0 1);
                       CustomAction (readds 0 2)];
              trace := [] |} in
  run 40 update 0 [VInt 1] w = OutOfFuel.
Proof.
  intros w. apply (sequence_update_never_returns 40 w 0 [1; 2] 1 eq_refl).
  - cbn. lia.
  - intros c Hc.
    apply elem_of_cons in Hc as [->|Hc]; [done|].
    apply elem_of_cons in Hc as [->|Hc]; [done|].
    by apply elem_of_nil in Hc.
Defined.
